(** * SearchBar: shallow embedding of [src/theme/SearchBar/index.js]

    The search bar of docusaurus-search-local: the term codec carried by the
    [highlight] query parameter, the query sent to the lunr index, the ranking
    of its results, the navigation on selection, the highlight effect and the
    load gate of the index. *)

From Stdlib Require Import ZArith NArith QArith Strings.String Strings.Ascii.
From Stdlib Require Import DecimalString Lia.
From stdpp Require Import base decidable option list sorting.

Open Scope list_scope.

(** ** JavaScript strings

    A JavaScript string is a finite sequence of UTF-16 code units.  Regular
    expressions without the [u] flag, [split], [replace], [indexOf],
    [startsWith] and [substr] all work on code units. *)

Definition char := N.
Abbreviation jsstring := (list char).

(** A string literal of the source, one code unit per (ASCII) character. *)
Definition js (s : string) : jsstring :=
  map N_of_ascii (list_ascii_of_string s).

Definition tilde : char := 126%N.      (* "~" *)
Definition amp : char := 38%N.         (* "&" *)
Definition hashc : char := 35%N.       (* "#" *)
Definition qmark : char := 63%N.       (* "?" *)
Definition percent : char := 37%N.     (* "%" *)

(** [s.split(sep)] for a separator string of one code unit: the segments
    between the occurrences of [sep]; never the empty array. *)
Fixpoint split_on (sep : char) (s : jsstring) : list jsstring :=
  match s with
  | [] => [[]]
  | c :: rest =>
      if decide (c = sep) then [] :: split_on sep rest
      else match split_on sep rest with
           | seg :: segs => (c :: seg) :: segs
           | [] => [[c]]
           end
  end.

(** [arr.join(sep)] on an array of strings. *)
Fixpoint join (sep : jsstring) (arr : list jsstring) : jsstring :=
  match arr with
  | [] => []
  | x :: rest =>
      match rest with
      | [] => x
      | _ :: _ => x ++ sep ++ join sep rest
      end
  end.

(** [pair.startsWith(prefix)] *)
Fixpoint startsWith (s prefix : jsstring) : bool :=
  match prefix, s with
  | [], _ => true
  | p :: prefix', c :: s' => if decide (c = p) then startsWith s' prefix' else false
  | _ :: _, [] => false
  end.

(** ** The term codec (lines 119-124 and 240-243) *)
Module TermCodec.

(** [term.replace(/~/g, "~~")] *)
Definition escape (term : jsstring) : jsstring :=
  flat_map (fun c => if decide (c = tilde) then [tilde; tilde] else [c]) term.

(** [terms.map((term) => term.replace(/~/g, "~~")).join("~")] *)
Definition encode (terms : list jsstring) : jsstring :=
  join [tilde] (map escape terms).

(** The regular expression [/(?<!~)~(?!~)/] matches at a code unit [c]
    whose predecessor is [prev] and whose successor is [next] (each [None]
    at an end of the string). *)
Definition lone_tilde (prev : option char) (c : char) (next : option char) : bool :=
  bool_decide (c = tilde)
  && negb (bool_decide (prev = Some tilde))
  && negb (bool_decide (next = Some tilde)).

(** [param.split(/(?<!~)~(?!~)/)], scanning from a position whose
    predecessor is [prev].  Every match is one code unit long, so the
    segments are the pieces between the matches. *)
Fixpoint split_lone (prev : option char) (s : jsstring) : list jsstring :=
  match s with
  | [] => [[]]
  | c :: rest =>
      if lone_tilde prev c (head rest) then [] :: split_lone (Some c) rest
      else match split_lone (Some c) rest with
           | seg :: segs => (c :: seg) :: segs
           | [] => [[c]]
           end
  end.

(** [each.replace(/~~/g, "~")]: leftmost matches, not overlapping. *)
Fixpoint unescape (each : jsstring) : jsstring :=
  match each with
  | [] => []
  | c :: rest =>
      match rest with
      | d :: rest' =>
          if bool_decide (c = tilde) && bool_decide (d = tilde)
          then tilde :: unescape rest'
          else c :: unescape rest
      | [] => [c]
      end
  end.

(** Lines 119-124. *)
Definition decode (param : jsstring) : list jsstring :=
  map unescape
    (filter (fun each : jsstring => 0 < length each) (split_lone None param)).

(** No "~" of a term touches the "~" that [encode] puts between two
    terms. *)
Fixpoint separable (terms : list jsstring) : Prop :=
  match terms with
  | [] => True
  | t :: rest =>
      t <> []
      /\ match rest with
         | [] => True
         | t' :: _ => last t <> Some tilde /\ head t' <> Some tilde
         end
      /\ separable rest
  end.

(** The number of code units of [s] other than "~". *)
Definition plain (s : jsstring) : nat :=
  length (filter (fun c => c <> tilde) s).

Definition total_plain (l : list jsstring) : nat := sum_list (map plain l).

End TermCodec.

Import TermCodec.

(** ** [encodeURIComponent] (ECMAScript, Encode with the set uriUnescaped)

    A built-in of the language, written out here from its definition: code
    units of the unescaped set are copied, every other code point is written
    as the percent-escapes of its UTF-8 octets, and an unpaired surrogate
    throws a URIError. *)
Module URI.

Definition between (lo hi c : N) : bool := ((lo <=? c) && (c <=? hi))%N.

(** uriAlpha, DecimalDigit and uriMark ([-_.!~*'()]). *)
Definition unescaped (c : char) : bool :=
  between 65 90 c || between 97 122 c || between 48 57 c
  || bool_decide (c ∈ [45; 95; 46; 33; 126; 42; 39; 40; 41]%N).

Definition leading_surrogate (c : char) : bool := between 55296 56319 c.
Definition trailing_surrogate (c : char) : bool := between 56320 57343 c.

Definition utf8 (cp : N) : list N :=
  (if cp <? 128 then [cp]
   else if cp <? 2048 then
     [N.lor 192 (N.shiftr cp 6); N.lor 128 (N.land cp 63)]
   else if cp <? 65536 then
     [N.lor 224 (N.shiftr cp 12);
      N.lor 128 (N.land (N.shiftr cp 6) 63);
      N.lor 128 (N.land cp 63)]
   else
     [N.lor 240 (N.shiftr cp 18);
      N.lor 128 (N.land (N.shiftr cp 12) 63);
      N.lor 128 (N.land (N.shiftr cp 6) 63);
      N.lor 128 (N.land cp 63)])%N.

(** One digit of "0123456789ABCDEF". *)
Definition hex_digit (d : N) : char :=
  (if d <? 10 then 48 + d else 55 + d)%N.

Definition percent_escape (octet : N) : jsstring :=
  [percent; hex_digit (N.shiftr octet 4); hex_digit (N.land octet 15)].

Definition escape_code_point (cp : N) : jsstring :=
  flat_map percent_escape (utf8 cp).

(** [None] stands for the URIError. *)
Fixpoint encodeURIComponent (s : jsstring) : option jsstring :=
  match s with
  | [] => Some []
  | c :: rest =>
      if unescaped c then cons c <$> encodeURIComponent rest
      else if trailing_surrogate c then None
      else if leading_surrogate c then
        match rest with
        | d :: rest' =>
            if trailing_surrogate d then
              app (escape_code_point
                     ((c - 55296) * 1024 + (d - 56320) + 65536)%N)
                <$> encodeURIComponent rest'
            else None
        | [] => None
        end
      else app (escape_code_point c) <$> encodeURIComponent rest
  end.

End URI.

Import URI.

(** ** Documents and results *)

(** A document id is a number or a string in the index file; the code only
    ever uses [document.id.toString()].  [IdNum n] stands for a natural
    number below 10^21, which JavaScript prints in plain decimal; larger
    numbers, printed in exponent form, are outside this model. *)
Inductive DocId :=
| IdNum (n : N)
| IdStr (s : jsstring).

Definition toString (i : DocId) : jsstring :=
  match i with
  | IdNum n => js (DecimalString.NilEmpty.string_of_uint (N.to_uint n))
  | IdStr s => s
  end.

Record Document := {
  id : DocId;
  pageTitle : jsstring;
  sectionTitle : jsstring;
  sectionRoute : jsstring;
}.

(** An entry of the array returned by [index.query].  A score is a finite
    number; the code only compares it with 0, which is exact, so a rational
    stands for it. *)
Record QueryResult := {
  ref : jsstring;
  result_score : Q;
}.

(** An entry of the array handed to [cb]; [document] is [None] when
    [documents.find] returned [undefined]. *)
Record SearchResult := {
  document : option Document;
  score : Q;
  terms : list jsstring;
}.

#[global] Instance Qlt_decision (x y : Q) : Decision (x < y)%Q.
Proof. unfold Qlt. apply _. Defined.

(** ** The query (lines 162-187) *)
Module QueryBuilder.

Inductive Wildcard := TRAILING.
Inductive Presence := REQUIRED.

(** The first argument of [query.term]: the array [terms] or the string
    [versionToSearch]. *)
Inductive TermArg :=
| Terms (ts : list jsstring)
| Term (t : jsstring).

(** The options object of one [query.term] call; a key that is not
    written is [None]. *)
Record Clause := {
  term : TermArg;
  fields : list jsstring;
  boost : N;
  wildcard : option Wildcard;
  presence : option Presence;
}.

(** The query object collects the clauses in call order. *)
Definition Query := list Clause.

Definition query_term (arg : TermArg) (f : list jsstring) (b : N)
    (w : option Wildcard) (p : option Presence) (query : Query) : Query :=
  query ++ [{| term := arg; fields := f; boost := b;
               wildcard := w; presence := p |}].

(** The callback passed to [index.query]. *)
Definition build (terms : list jsstring) (versioningEnabled : bool)
    (versionToSearch : jsstring) (query : Query) : Query :=
  let query := query_term (Terms terms) [js "title"] 5 None None query in
  let query := query_term (Terms terms) [js "title"] 5 (Some TRAILING) None query in
  let query := query_term (Terms terms) [js "content"] 1 None None query in
  let query := query_term (Terms terms) [js "content"] 1 (Some TRAILING) None query in
  if versioningEnabled
  then query_term (Term versionToSearch) [js "version"] 0 None (Some REQUIRED) query
  else query.

End QueryBuilder.

(** ** The ranker (lines 188-198) *)
Module ResultRanker.

(** [documents.find((document) => document.id.toString() === result.ref)] *)
Definition find_document (documents : list Document) (result : QueryResult)
    : option Document :=
  List.find (fun document => bool_decide (toString (id document) = ref result))
    documents.

Definition to_search_result (documents : list Document)
    (terms : list jsstring) (result : QueryResult) : SearchResult :=
  {| document := find_document documents result;
     score := result_score result;
     terms := terms |}.

(** [.filter((result) => result.score > 0).slice(0, 8).map(...)] *)
Definition rank (documents : list Document) (terms : list jsstring)
    (results : list QueryResult) : list SearchResult :=
  map (to_search_result documents terms)
    (take 8 (filter (fun result => (0 < result_score result)%Q) results)).

(** The order in which the index engine returns its results. *)
Definition by_descending_score (results : list QueryResult) : Prop :=
  StronglySorted (fun a b => (result_score b <= result_score a)%Q) results.

Definition positive (result : QueryResult) : Prop :=
  (0 < result_score result)%Q.

End ResultRanker.

(** Nine results as the index engine returns them, best first. *)
Definition nine_results : list QueryResult :=
  map (fun n : nat => {| ref := toString (IdNum (N.of_nat n));
                         result_score := inject_Z (Z.of_nat n) |})
    [9; 8; 7; 6; 5; 4; 3; 2; 1]%nat.

(** ** The [source] of the autocomplete (lines 161-200)

    The tokenizer and the index engine come from the generated module and
    from lunr; they are parameters here. *)
Section Source.

Variable tokenize : jsstring -> list jsstring.
Variable index_query : QueryBuilder.Query -> list QueryResult.

Definition source (documents : list Document) (versioningEnabled : bool)
    (versionToSearch : jsstring) (input : jsstring) : list SearchResult :=
  let terms := tokenize input in
  let results :=
    index_query (QueryBuilder.build terms versioningEnabled versionToSearch [])
  in
  ResultRanker.rank documents terms results.

End Source.

(** ** Selecting a suggestion (lines 230-248) *)
Module Navigation.

Inductive Exception := TypeError | URIError.

(** A truthy string. *)
Definition truthy (s : option jsstring) : bool :=
  match s with
  | Some (_ :: _) => true
  | _ => false
  end.

(** The handler of [autocomplete:selected]: the URL given to
    [history.push], or the exception that leaves the handler. *)
Definition selected (suggestion : SearchResult) : Exception + jsstring :=
  match document suggestion with
  | None => inl TypeError                    (* undefined.sectionRoute *)
  | Some document =>
      let parts := split_on hashc (sectionRoute document) in
      let path := default [] (parts !! 0%nat) in
      let hash := parts !! 1%nat in
      match encodeURIComponent (encode (terms suggestion)) with
      | None => inl URIError
      | Some component =>
          let url := path ++ js "?highlight=" ++ component in
          inr (if truthy hash then url ++ [hashc] ++ default [] hash else url)
      end
  end.

End Navigation.

(** ** The highlight effect (lines 48-67 and 104-136) *)
Module Highlighter.

Record Location := {
  pathname : jsstring;
  search : jsstring;
}.

(** The loop of [getQueryParamter] over [search.split("&")]. *)
Fixpoint first_pair (prefix : jsstring) (pairs : list jsstring) : option jsstring :=
  match pairs with
  | [] => None
  | pair_ :: pairs' =>
      if startsWith pair_ prefix then Some (drop (length prefix) pair_)
      else first_pair prefix pairs'
  end.

(** [None] is [null]. *)
Definition getQueryParamter (location : Location) (name : jsstring)
    : option jsstring :=
  let search :=
    match search location with
    | c :: rest => if decide (c = qmark) then rest else c :: rest
    | [] => []
    end in
  first_pair (name ++ js "=") (split_on amp search).

(** A DOM element is a node handle. *)
Definition Element := nat.

(** What the effect sees of the page: [window.location.pathname] and the
    first [article] and [main] elements, if any. *)
Record Page := {
  window_pathname : jsstring;
  article : option Element;
  main : option Element;
}.

(** The calls that change the DOM. *)
Inductive DomCall :=
| mark (root : Element) (terms : list jsstring) (ignoreJoiners : bool)
| unmark (root : Element) (ignoreJoiners : bool).

(** One run of the effect: the DOM calls it makes, and the DOM calls of
    the cleanup function it returns (none when it returns nothing). *)
Record EffectRun := {
  mutations : list DomCall;
  teardown : list DomCall;
}.

Definition inert : EffectRun := {| mutations := []; teardown := [] |}.

Section Effect.

(** From the generated module. *)
Variables docsBasePath blogBasePath : jsstring.

Definition isDocsOrBlog (page : Page) (baseUrl : jsstring) : bool :=
  startsWith (window_pathname page) (baseUrl ++ docsBasePath)
  || startsWith (window_pathname page) (baseUrl ++ blogBasePath).

Definition highlight_effect (location : Location) (page : Page)
    (baseUrl : jsstring) : EffectRun :=
  match getQueryParamter location (js "highlight") with
  | None | Some [] => inert
  | Some param =>
      let root :=
        if isDocsOrBlog page baseUrl then article page else main page in
      match root with
      | None => inert
      | Some root =>
          let terms := decode param in
          match terms with
          | [] => inert
          | _ :: _ =>
              {| mutations := [mark root terms true];
                 teardown := [unmark root true] |}
          end
      end
  end.

End Effect.

(** The terms from the selection to the arrival: [encode], then
    [encodeURIComponent] into the search string of the pushed URL, then
    [getQueryParamter] on the location of the new page, then [decode].
    [None] when the URL is never pushed. *)
Definition url_round_trip (pathname : jsstring) (terms : list jsstring)
    : option (list jsstring) :=
  component ← encodeURIComponent (encode terms);
  param ← getQueryParamter
            {| pathname := pathname; search := js "?highlight=" ++ component |}
            (js "highlight");
  Some (decode param).

End Highlighter.

(** ** The load gate (lines 71, 81 and 138-275)

    JavaScript runs each handler to its first [await] without interruption;
    the part of [loadIndex] after the [await] runs when both promises have
    resolved, and never runs when one of them rejects.

    After their [await]s, [loadIndex] (lines 250-252) and [onIconClick]
    (line 272) call [searchBarRef.current.focus()].  Whether that call fires
    the focus event is decided by the DOM (the input may have the focus
    already, or not be displayed); when it does, [onInputFocus] runs, and
    that run is one more [InputFocus] of the event list.  [step] itself makes
    no such call: the session below records the gate, not the DOM. *)
Module LoadGate.

Inductive IndexState := st_empty | st_loading | st_done.

Record Session := {
  indexState : IndexState;
  focusAfterIndexLoaded : bool;
  fetches : nat;          (* calls of [fetchIndex] so far *)
  awaiting : bool;        (* a [loadIndex] is suspended at its [await] *)
  installed : nat;        (* calls of [autoComplete] so far *)
}.

Definition initial : Session :=
  {| indexState := st_empty; focusAfterIndexLoaded := false;
     fetches := 0; awaiting := false; installed := 0 |}.

(** [loadIndex] up to its [await]. *)
Definition loadIndex (s : Session) : Session :=
  match indexState s with
  | st_empty =>
      {| indexState := st_loading;
         focusAfterIndexLoaded := focusAfterIndexLoaded s;
         fetches := S (fetches s);
         awaiting := true;
         installed := installed s |}
  | _ => s
  end.

(** [loadIndex] after its [await] (lines 150-253), but for its [focus()]
    call (see the note above). *)
Definition loadIndex_resume (s : Session) : Session :=
  {| indexState := st_done;
     focusAfterIndexLoaded := focusAfterIndexLoaded s;
     fetches := fetches s;
     awaiting := false;
     installed := S (installed s) |}.

(** The rejection of the awaited promise: the rest of [loadIndex] is
    skipped. *)
Definition loadIndex_reject (s : Session) : Session :=
  {| indexState := indexState s;
     focusAfterIndexLoaded := focusAfterIndexLoaded s;
     fetches := fetches s;
     awaiting := false;
     installed := installed s |}.

Definition onInputFocus (s : Session) : Session :=
  loadIndex
    {| indexState := indexState s;
       focusAfterIndexLoaded := true;
       fetches := fetches s;
       awaiting := awaiting s;
       installed := installed s |}.

Definition onInputMouseOver (s : Session) : Session := loadIndex s.

(** [onIconClick] up to its [await]; for the [focus()] that follows it see
    the note above. *)
Definition onIconClick (s : Session) : Session := loadIndex s.

Inductive Event :=
| InputFocus
| InputMouseOver
| IconClick
| LoadResolved
| LoadRejected.

(** One turn of the event loop.  The two completions can only happen to a
    suspended [loadIndex]. *)
Definition step (s : Session) (e : Event) : Session :=
  match e with
  | InputFocus => onInputFocus s
  | InputMouseOver => onInputMouseOver s
  | IconClick => onIconClick s
  | LoadResolved => if awaiting s then loadIndex_resume s else s
  | LoadRejected => if awaiting s then loadIndex_reject s else s
  end.

Definition run (s : Session) (events : list Event) : Session :=
  fold_left step events s.

(** The order [empty < loading < done]. *)
Definition stage (st : IndexState) : nat :=
  match st with
  | st_empty => 0
  | st_loading => 1
  | st_done => 2
  end.

(** What holds of every session reachable from the initial one. *)
Definition gate_invariant (s : Session) : Prop :=
  match indexState s with
  | st_empty => fetches s = 0 /\ awaiting s = false
  | st_loading => fetches s = 1
  | st_done => fetches s = 1 /\ awaiting s = false
  end.

End LoadGate.

(** ** The suggestion template (lines 201-219) *)
Module Templates.

Definition quote : char := 34%N.

(** The template literal of one [span] element. *)
Definition span (class body : jsstring) : jsstring :=
  js "<span class=" ++ [quote] ++ class ++ [quote] ++ js ">" ++ body
  ++ js "</span>".

Section Suggestion.

(** [autoComplete.escapeHighlightedString]. *)
Variable escape : jsstring -> jsstring.

(** [templates.suggestion]: the HTML of one suggestion, or the exception
    that leaves the template. *)
Definition suggestion (s : SearchResult) : Navigation.Exception + jsstring :=
  match document s with
  | None => inl Navigation.TypeError             (* undefined.pageTitle *)
  | Some document =>
      let result :=
        span (js "aa-suggestion-page") (escape (pageTitle document)) in
      inr (if bool_decide (pageTitle document <> sectionTitle document)
           then result
                ++ span (js "aa-suggestion-section")
                     (escape (sectionTitle document))
           else result)
  end.

End Suggestion.

End Templates.

(** ** Vocabulary of the further properties *)

Definition equals : char := 61%N.    (* "=" *)

(** A string with its "~" taken out. *)
Definition without_tildes (s : jsstring) : jsstring :=
  filter (fun c => c <> tilde) s.

(** The search string that carries the given key-value pairs. *)
Definition search_of (pairs : list (jsstring * jsstring)) : jsstring :=
  qmark :: join [amp] (map (fun kv => kv.1 ++ equals :: kv.2) pairs).

(** The first value stored under [name]. *)
Definition first_value (pairs : list (jsstring * jsstring)) (name : jsstring)
    : option jsstring :=
  snd <$> List.find (fun kv => bool_decide (kv.1 = name)) pairs.

Definition surrogate (c : char) : bool :=
  leading_surrogate c || trailing_surrogate c.

(** The events that call [loadIndex]. *)
Definition is_intent (e : LoadGate.Event) : bool :=
  match e with
  | LoadGate.InputFocus | LoadGate.InputMouseOver | LoadGate.IconClick => true
  | LoadGate.LoadResolved | LoadGate.LoadRejected => false
  end.

(** [autoComplete] has been called exactly when the state is [done]. *)
Definition install_invariant (s : LoadGate.Session) : Prop :=
  match LoadGate.indexState s with
  | LoadGate.st_done => LoadGate.installed s = 1
  | _ => LoadGate.installed s = 0
  end.

(** C8: the three concrete examples of the codec. *)
Theorem codec_examples :
  encode [js "a~b"] = js "a~~b"
  /\ decode (js "a~~b") = [js "a~b"]
  /\ decode (js "a~b") = [js "a"; js "b"].
Proof. repeat split; vm_compute; reflexivity. Qed.

(** ** The ranker *)
Section RankerFacts.

Import ResultRanker.

Variable documents : list Document.
Variable terms0 : list jsstring.

Lemma rank_length results :
  length (rank documents terms0 results)
  = length (take 8 (filter positive results)).
Proof. unfold rank. apply length_fmap. Qed.

Lemma rank_scores results :
  map score (rank documents terms0 results)
  = map result_score (take 8 (filter positive results)).
Proof.
  unfold rank. rewrite <- list_fmap_compose. reflexivity.
Qed.

Lemma kept_sublist results :
  take 8 (filter positive results) `sublist_of` results.
Proof.
  etransitivity; [apply sublist_take | apply sublist_filter].
Qed.

(** In a list sorted by descending score the results of positive score
    come first. *)
Lemma positive_prefix results :
  by_descending_score results ->
  filter positive results = take (length (filter positive results)) results.
Proof.
  induction 1 as [|a l Hl IH Ha]; [reflexivity|].
  rewrite filter_cons. destruct (decide (positive a)) as [Hp|Hn].
  - simpl. f_equal. exact IH.
  - assert (Hnil : filter positive l = []).
    { destruct (filter positive l) as [|x f] eqn:Hf; [reflexivity|].
      assert (Hx : x ∈ filter positive l) by (rewrite Hf; left).
      apply list_elem_of_filter in Hx as [Hpx Hin].
      rewrite Forall_forall in Ha. specialize (Ha x Hin). simpl in Ha.
      destruct Hn. unfold positive in *. eapply Qlt_le_trans; eassumption. }
    rewrite Hnil. reflexivity.
Qed.

End RankerFacts.

(** C3: no result of score 0 is handed to the callback: whatever the index
    engine returned, every result of the ranked output, and so of the whole
    [source], has a score above 0; a document matched by the version clause
    alone, which the engine scores 0, is among those removed. *)
Theorem rank_no_zero_score :
  forall documents ts results,
    Forall (fun r => (0 < score r)%Q /\ ~ (score r == 0)%Q)
      (ResultRanker.rank documents ts results)
    /\ forall tokenize index_query versioningEnabled versionToSearch input,
         Forall (fun r => (0 < score r)%Q /\ ~ (score r == 0)%Q)
           (source tokenize index_query documents versioningEnabled
              versionToSearch input).
Proof.
  assert (Hrank : forall documents ts results,
             Forall (fun r => (0 < score r)%Q /\ ~ (score r == 0)%Q)
               (ResultRanker.rank documents ts results)).
  { intros documents ts results.
    unfold ResultRanker.rank. apply Forall_fmap, Forall_take.
    apply Forall_forall. intros q Hq.
    apply list_elem_of_filter in Hq as [Hpos _]. simpl.
    split; [exact Hpos|].
    intros Heq. rewrite Heq in Hpos. exact (Qlt_irrefl 0 Hpos). }
  intros documents ts results. split; [apply Hrank|].
  intros tokenize index_query ve vts input. unfold source. apply Hrank.
Qed.

(** A result of score 0 next to one of positive score. *)
Example rank_drops_version_only_match :
  ResultRanker.rank [] [js "a"]
    [{| ref := js "1"; result_score := 0 |};
     {| ref := js "2"; result_score := 3 # 2 |}]
  = [{| document := None; score := 3 # 2; terms := [js "a"] |}].
Proof. vm_compute. reflexivity. Qed.

(** C4: the ranked output follows an order-preserving subsequence of the
    query results (it is never re-sorted) and has at most 8 entries; when
    at least 8 results have a positive score it has exactly 8; and when the
    results also come sorted by descending score, these are the first 8
    results, and no result left out has a higher score than one that was
    kept. *)
Theorem rank_subsequence_top8 :
  forall documents ts results,
    (exists kept,
        kept `sublist_of` results
        /\ ResultRanker.rank documents ts results
           = map (ResultRanker.to_search_result documents ts) kept)
    /\ map score (ResultRanker.rank documents ts results)
         `sublist_of` map result_score results
    /\ length (ResultRanker.rank documents ts results) <= 8
    /\ (8 <= length (filter ResultRanker.positive results) ->
        length (ResultRanker.rank documents ts results) = 8)
    /\ (ResultRanker.by_descending_score results ->
        8 <= length (filter ResultRanker.positive results) ->
        ResultRanker.rank documents ts results
        = map (ResultRanker.to_search_result documents ts) (take 8 results)
        /\ forall r q,
             r ∈ ResultRanker.rank documents ts results ->
             q ∈ drop 8 results ->
             (result_score q <= score r)%Q).
Proof.
  intros documents ts results. split; [|split; [|split; [|split]]].
  - eexists. split; [apply kept_sublist | reflexivity].
  - rewrite rank_scores. apply fmap_sublist, kept_sublist.
  - rewrite rank_length. apply firstn_le_length.
  - intros Hmany. rewrite rank_length, length_take. lia.
  - intros Hsorted Hmany.
    assert (Hrank : ResultRanker.rank documents ts results
                    = map (ResultRanker.to_search_result documents ts)
                        (take 8 results)).
    { unfold ResultRanker.rank. f_equal. fold ResultRanker.positive.
      rewrite (positive_prefix results Hsorted), take_take. f_equal. lia. }
    split; [exact Hrank|].
    intros r q Hr Hq.
    rewrite Hrank in Hr. apply list_elem_of_fmap in Hr as [q0 [-> Hq0]].
    simpl. unfold ResultRanker.by_descending_score in Hsorted.
    rewrite <- (take_drop 8 results) in Hsorted.
    exact (StronglySorted_app_1_elem_of _ _ _ _ _ Hsorted Hq0 Hq).
Qed.

Lemma rank_subsequence_top8_witness :
  ResultRanker.by_descending_score nine_results
  /\ 8 <= length (filter ResultRanker.positive nine_results)
  /\ length (ResultRanker.rank [] [js "a"] nine_results) = 8
  /\ ResultRanker.rank [] [js "a"] nine_results
     = map (ResultRanker.to_search_result [] [js "a"]) (take 8 nine_results).
Proof.
  assert (Hsorted : ResultRanker.by_descending_score nine_results).
  { unfold ResultRanker.by_descending_score, nine_results. simpl.
    repeat constructor; apply Qle_bool_imp_le; reflexivity. }
  assert (Hmany : 8 <= length (filter ResultRanker.positive nine_results)).
  { vm_compute. lia. }
  split; [exact Hsorted|]. split; [exact Hmany|].
  destruct (rank_subsequence_top8 [] [js "a"] nine_results)
    as (_ & _ & _ & Hlen & Htop).
  split; [exact (Hlen Hmany) | exact (proj1 (Htop Hsorted Hmany))].
Defined.

(** C2 as stated fails: a result whose ref matches no document is kept,
    with a missing document. *)
Lemma rank_keeps_unmatched_ref :
  let documents :=
    [{| id := IdNum 1; pageTitle := js "A"; sectionTitle := js "A";
        sectionRoute := js "/docs/a" |}] in
  let results := [{| ref := js "2"; result_score := 1 |}] in
  ResultRanker.rank documents [js "a"] results
  = [{| document := None; score := 1; terms := [js "a"] |}]
  /\ ~ Forall (fun r => is_Some (document r))
         (ResultRanker.rank documents [js "a"] results).
Proof.
  split; [vm_compute; reflexivity|].
  intros HF. vm_compute in HF. inversion HF as [|? ? [d Hd] _]. discriminate Hd.
Qed.

(** C2, amended: the join never fails and drops nothing.  The output has
    one entry for each of the first 8 results of positive score, in order:
    the entry carries the score of its result, the terms of the query and
    the first document whose id, as a string, equals the ref; the document
    is missing exactly when no document of the table has that id. *)
Theorem rank_joins_every_survivor :
  forall documents ts results,
    Forall2
      (fun result r =>
         score r = result_score result
         /\ terms r = ts
         /\ document r = ResultRanker.find_document documents result
         /\ (document r = None
             <-> Forall (fun d => toString (id d) <> ref result) documents)
         /\ (forall d, document r = Some d ->
                       d ∈ documents /\ toString (id d) = ref result))
      (take 8 (filter ResultRanker.positive results))
      (ResultRanker.rank documents ts results).
Proof.
  intros documents ts results. unfold ResultRanker.rank.
  apply Forall2_fmap_r, Forall_Forall2_diag, Forall_forall.
  intros result _. simpl.
  do 3 (split; [reflexivity|]). split; [split|].
  - intros Hnone. apply Forall_forall. intros d Hd Heq.
    pose proof (find_none _ _ Hnone d (proj1 (list_elem_of_In _ _) Hd)) as Hf.
    simpl in Hf. apply bool_decide_eq_false in Hf. exact (Hf Heq).
  - intros Hall. unfold ResultRanker.find_document.
    destruct (find _ documents) as [d|] eqn:Hfind; [|reflexivity].
    apply find_some in Hfind as [Hin Hf]. apply bool_decide_eq_true in Hf.
    rewrite Forall_forall in Hall.
    destruct (Hall d (proj2 (list_elem_of_In _ _) Hin) Hf).
  - intros d Hfind. apply find_some in Hfind as [Hin Hf].
    apply bool_decide_eq_true in Hf.
    split; [apply list_elem_of_In, Hin | exact Hf].
Qed.

(** The clauses that the callback adds to an empty query object. *)
Lemma build_clauses :
  forall (tokenize : jsstring -> list jsstring) input versioningEnabled
         versionToSearch,
    let terms := tokenize input in
    let clause arg field b w p :=
      {| QueryBuilder.term := arg; QueryBuilder.fields := [field];
         QueryBuilder.boost := b; QueryBuilder.wildcard := w;
         QueryBuilder.presence := p |} in
    QueryBuilder.build terms versioningEnabled versionToSearch []
    = [clause (QueryBuilder.Terms terms) (js "title") 5%N None None;
       clause (QueryBuilder.Terms terms) (js "title") 5%N
         (Some QueryBuilder.TRAILING) None;
       clause (QueryBuilder.Terms terms) (js "content") 1%N None None;
       clause (QueryBuilder.Terms terms) (js "content") 1%N
         (Some QueryBuilder.TRAILING) None]
      ++ (if versioningEnabled
          then [clause (QueryBuilder.Term versionToSearch) (js "version") 0%N None
                  (Some QueryBuilder.REQUIRED)]
          else []).
Proof.
  intros tokenize input versioningEnabled versionToSearch terms clause.
  unfold QueryBuilder.build, QueryBuilder.query_term.
  destruct versioningEnabled; reflexivity.
Qed.

(** C5: for every raw input, [source] tokenizes it and hands the index
    engine, whatever that engine is, the query made of four clauses over the
    tokenized terms (title exact and title trailing-wildcard with boost 5,
    content exact and content trailing-wildcard with boost 1), followed,
    exactly when versioning is enabled, by one required clause on the version
    field for the version to search, with boost 0; what it passes on is the
    ranking of the engine's answer to that query, with the tokenized terms
    attached. *)
Theorem source_query_clauses :
  forall (tokenize : jsstring -> list jsstring)
         (index_query : QueryBuilder.Query -> list QueryResult)
         (documents : list Document) (versioningEnabled : bool)
         (versionToSearch input : jsstring),
    let clause arg field b w p :=
      {| QueryBuilder.term := arg; QueryBuilder.fields := [field];
         QueryBuilder.boost := b; QueryBuilder.wildcard := w;
         QueryBuilder.presence := p |} in
    let query :=
      [clause (QueryBuilder.Terms (tokenize input)) (js "title") 5%N None None;
       clause (QueryBuilder.Terms (tokenize input)) (js "title") 5%N
         (Some QueryBuilder.TRAILING) None;
       clause (QueryBuilder.Terms (tokenize input)) (js "content") 1%N None
         None;
       clause (QueryBuilder.Terms (tokenize input)) (js "content") 1%N
         (Some QueryBuilder.TRAILING) None]
      ++ (if versioningEnabled
          then [clause (QueryBuilder.Term versionToSearch) (js "version") 0%N
                  None (Some QueryBuilder.REQUIRED)]
          else []) in
    source tokenize index_query documents versioningEnabled versionToSearch
      input
    = ResultRanker.rank documents (tokenize input) (index_query query)
    /\ Forall (fun r => terms r = tokenize input)
         (source tokenize index_query documents versioningEnabled
            versionToSearch input).
Proof.
  intros tokenize index_query documents versioningEnabled versionToSearch
    input clause query.
  assert (Hquery : QueryBuilder.build (tokenize input) versioningEnabled
                     versionToSearch [] = query)
    by apply build_clauses.
  unfold source. rewrite Hquery. split; [reflexivity|].
  unfold ResultRanker.rank. apply Forall_fmap, Forall_forall.
  intros result _. reflexivity.
Qed.

(** ** The load gate *)
Section LoadGateFacts.

Import LoadGate.

Lemma gate_invariant_initial : gate_invariant initial.
Proof. split; reflexivity. Qed.

Lemma gate_invariant_step s e : gate_invariant s -> gate_invariant (step s e).
Proof.
  destruct s as [st f n a i]. unfold gate_invariant.
  destruct e, st, a; simpl; intuition congruence.
Qed.

Lemma gate_invariant_run s events : gate_invariant s -> gate_invariant (run s events).
Proof.
  revert s. induction events as [|e events IH]; intros s Hs; [exact Hs|].
  simpl. apply IH, gate_invariant_step, Hs.
Qed.

Lemma stage_step s e : stage (indexState s) <= stage (indexState (step s e)).
Proof. destruct s as [st f n a i]; destruct e, st, a; simpl; lia. Qed.

Lemma stage_run s events : stage (indexState s) <= stage (indexState (run s events)).
Proof.
  revert s. induction events as [|e events IH]; intros s; [reflexivity|].
  simpl. etransitivity; [apply stage_step | apply IH].
Qed.

(** After a rejection nothing is suspended and the state is [loading]:
    no event changes the state any more. *)
Lemma stuck_step s e :
  indexState s = st_loading -> awaiting s = false ->
  indexState (step s e) = st_loading /\ awaiting (step s e) = false
  /\ fetches (step s e) = fetches s /\ installed (step s e) = installed s.
Proof.
  destruct s as [st f n a i]; simpl; intros -> ->. destruct e; simpl; auto.
Qed.

Lemma stuck_run s events :
  indexState s = st_loading -> awaiting s = false ->
  indexState (run s events) = st_loading
  /\ fetches (run s events) = fetches s
  /\ installed (run s events) = installed s.
Proof.
  revert s. induction events as [|e events IH]; intros s Hst Haw; [auto|].
  simpl. destruct (stuck_step s e Hst Haw) as (Hst' & Haw' & Hf & Hi).
  destruct (IH _ Hst' Haw') as (? & ? & ?). repeat split; congruence.
Qed.

End LoadGateFacts.

(** C6: whatever intents and completions occur, in any order, [fetchIndex]
    is called at most once; the gate is tested and set in the same turn in
    which the fetch starts; the state only moves forward along
    empty, loading, done and never comes back to empty; and when the load
    is rejected the state is loading for ever after, with no second fetch. *)
Theorem single_load_gate :
  forall events,
    let s := LoadGate.run LoadGate.initial events in
    LoadGate.fetches s <= 1
    /\ (LoadGate.indexState s = LoadGate.st_empty <-> LoadGate.fetches s = 0)
    /\ (forall e,
          LoadGate.stage (LoadGate.indexState s)
          <= LoadGate.stage (LoadGate.indexState (LoadGate.step s e)))
    /\ (forall more,
          LoadGate.indexState s <> LoadGate.st_empty ->
          LoadGate.indexState (LoadGate.run s more) <> LoadGate.st_empty)
    /\ (forall more,
          LoadGate.awaiting s = true ->
          let s' := LoadGate.run s (LoadGate.LoadRejected :: more) in
          LoadGate.indexState s' = LoadGate.st_loading
          /\ LoadGate.fetches s' = 1).
Proof.
  intros events s.
  pose proof (gate_invariant_run _ events gate_invariant_initial) as Hinv.
  fold s in Hinv. unfold LoadGate.gate_invariant in Hinv.
  split; [|split; [|split; [|split]]].
  - destruct (LoadGate.indexState s); lia.
  - destruct (LoadGate.indexState s); split; intros; (lia || congruence).
  - intros e. apply stage_step.
  - intros more Hne Hempty.
    pose proof (stage_run s more) as Hle. rewrite Hempty in Hle.
    destruct (LoadGate.indexState s); simpl in Hle; [congruence | lia | lia].
  - intros more Haw s'.
    assert (Hst : LoadGate.indexState s = LoadGate.st_loading).
    { destruct (LoadGate.indexState s); [|reflexivity|]; destruct Hinv; congruence. }
    rewrite Hst in Hinv.
    assert (Hs' : s' = LoadGate.run (LoadGate.loadIndex_reject s) more).
    { unfold s'. simpl. rewrite Haw. reflexivity. }
    destruct (stuck_run (LoadGate.loadIndex_reject s) more Hst eq_refl)
      as (H1 & H2 & _).
    rewrite Hs'. split; [exact H1|]. rewrite H2. exact Hinv.
Qed.

Lemma single_load_gate_witness :
  let s := LoadGate.run LoadGate.initial
             [LoadGate.InputMouseOver; LoadGate.InputFocus; LoadGate.IconClick] in
  LoadGate.fetches s = 1
  /\ LoadGate.awaiting s = true
  /\ LoadGate.indexState
       (LoadGate.run s [LoadGate.LoadRejected; LoadGate.InputFocus;
                        LoadGate.IconClick]) = LoadGate.st_loading
  /\ LoadGate.indexState (LoadGate.run s [LoadGate.LoadResolved])
     <> LoadGate.st_empty.
Proof.
  intros s.
  destruct (single_load_gate
              [LoadGate.InputMouseOver; LoadGate.InputFocus; LoadGate.IconClick])
    as (_ & _ & _ & Hfwd & Hrej).
  split; [reflexivity|]. split; [reflexivity|]. split.
  - exact (proj1 (Hrej [LoadGate.InputFocus; LoadGate.IconClick] eq_refl)).
  - apply Hfwd. discriminate.
Defined.

(** ** Splitting a route *)
Section SplitFacts.

Lemma split_on_absent sep s : sep ∉ s -> split_on sep s = [s].
Proof.
  induction s as [|c s IH]; intros Hs; [reflexivity|].
  apply not_elem_of_cons in Hs as [Hne Hs]. simpl.
  rewrite decide_False by congruence. rewrite (IH Hs). reflexivity.
Qed.

Lemma split_on_first sep a b :
  sep ∉ a -> split_on sep (a ++ sep :: b) = a :: split_on sep b.
Proof.
  induction a as [|c a IH]; intros Ha; simpl.
  - rewrite decide_True by reflexivity. reflexivity.
  - apply not_elem_of_cons in Ha as [Hne Ha].
    rewrite decide_False by congruence. rewrite (IH Ha). reflexivity.
Qed.

Lemma split_on_nonempty sep s : split_on sep s <> [].
Proof.
  destruct s as [|c s]; simpl; [discriminate|].
  destruct (decide (c = sep)); [discriminate|].
  destruct (split_on sep s); discriminate.
Qed.

End SplitFacts.

(** Selecting a suggestion whose document is missing throws. *)
Example selected_missing_document :
  Navigation.selected {| document := None; score := 1; terms := [js "a"] |}
  = inl Navigation.TypeError.
Proof. reflexivity. Qed.

(** A second "#" in the route ends the fragment that is kept. *)
Example selected_second_hash :
  Navigation.selected
    {| document := Some {| id := IdNum 1; pageTitle := js "A";
                           sectionTitle := js "B";
                           sectionRoute := js "/a#b#c" |};
       score := 1; terms := [js "x"] |}
  = inr (js "/a?highlight=x#b").
Proof. vm_compute. reflexivity. Qed.

(** C9: the empty fragment decodes to no terms; and when the highlight
    parameter is absent, or the page has no content root, or the parameter
    decodes to no terms, the effect makes no DOM call and returns no cleanup:
    nothing to highlight is not an error. *)
Theorem empty_highlight_is_inert :
  decode [] = []
  /\ forall docsBasePath blogBasePath location page baseUrl,
       (Highlighter.getQueryParamter location (js "highlight") = None
        \/ (if Highlighter.isDocsOrBlog docsBasePath blogBasePath page baseUrl
            then Highlighter.article page else Highlighter.main page) = None
        \/ exists param,
             Highlighter.getQueryParamter location (js "highlight") = Some param
             /\ decode param = []) ->
       let run :=
         Highlighter.highlight_effect docsBasePath blogBasePath location page
           baseUrl in
       Highlighter.mutations run = [] /\ Highlighter.teardown run = [].
Proof.
  split; [reflexivity|].
  intros docs blog location page baseUrl Hcase run. unfold run.
  unfold Highlighter.highlight_effect.
  destruct (Highlighter.getQueryParamter location (js "highlight"))
    as [[|c param]|] eqn:Hparam; [split; reflexivity | | split; reflexivity].
  destruct (if Highlighter.isDocsOrBlog docs blog page baseUrl
            then Highlighter.article page else Highlighter.main page)
    as [root|] eqn:Hroot; [|split; reflexivity].
  destruct Hcase as [Habsent | [Hnoroot | (p & Hp & Hdec)]];
    [discriminate Habsent | discriminate Hnoroot |].
  injection Hp as <-. rewrite Hdec. split; reflexivity.
Qed.

Lemma empty_highlight_is_inert_witness :
  let location :=
    {| Highlighter.pathname := js "/docs/install";
       Highlighter.search := js "?highlight=~" |} in
  let page :=
    {| Highlighter.window_pathname := js "/docs/install";
       Highlighter.article := Some 1; Highlighter.main := Some 0 |} in
  Highlighter.getQueryParamter location (js "highlight") = Some (js "~")
  /\ decode (js "~") = []
  /\ Highlighter.mutations
       (Highlighter.highlight_effect (js "docs") (js "blog") location page
          (js "/")) = [].
Proof.
  intros location page.
  split; [reflexivity|]. split; [reflexivity|].
  apply (proj2 empty_highlight_is_inert (js "docs") (js "blog") location page
           (js "/")).
  right. right. exists (js "~"). split; reflexivity.
Defined.

(** ** The codec *)
Section CodecFacts.

(** Induction that follows a scan reading one or two code units at a time,
    as [unescape] and [encodeURIComponent] do. *)
Lemma scan_ind (P : jsstring -> Prop) :
  P [] ->
  (forall c, P [c]) ->
  (forall c d s, P s -> P (d :: s) -> P (c :: d :: s)) ->
  forall s, P s.
Proof.
  intros Hnil Hone Htwo s.
  assert (H : P s /\ forall c, P (c :: s)); [|exact (proj1 H)].
  induction s as [|d s [IH1 IH2]]; split; auto.
Qed.

Lemma escape_cons c t :
  escape (c :: t)
  = (if decide (c = tilde) then [tilde; tilde] else [c]) ++ escape t.
Proof. reflexivity. Qed.

Lemma unescape_other c s : c <> tilde -> unescape (c :: s) = c :: unescape s.
Proof.
  intros Hc. destruct s as [|d s]; [reflexivity|].
  cbn [unescape]. rewrite (bool_decide_eq_false_2 _ Hc). reflexivity.
Qed.

Lemma unescape_keep c d s :
  ~ (c = tilde /\ d = tilde) -> unescape (c :: d :: s) = c :: unescape (d :: s).
Proof.
  intros Hcd.
  change (unescape (c :: d :: s))
    with (if bool_decide (c = tilde) && bool_decide (d = tilde)
          then tilde :: unescape s else c :: unescape (d :: s)).
  destruct (bool_decide (c = tilde)) eqn:Hc; [|reflexivity].
  destruct (bool_decide (d = tilde)) eqn:Hd; [|reflexivity].
  apply bool_decide_eq_true in Hc, Hd. destruct Hcd. split; assumption.
Qed.

Lemma unescape_pair s : unescape (tilde :: tilde :: s) = tilde :: unescape s.
Proof. reflexivity. Qed.

Lemma unescape_escape t : unescape (escape t) = t.
Proof.
  induction t as [|c t IH]; [reflexivity|].
  rewrite escape_cons. destruct (decide (c = tilde)) as [->|Hc].
  - change (unescape (tilde :: tilde :: escape t) = tilde :: t).
    rewrite unescape_pair, IH. reflexivity.
  - change (unescape (c :: escape t) = c :: t).
    rewrite (unescape_other _ _ Hc), IH. reflexivity.
Qed.

Lemma lone_tilde_other prev c next : c <> tilde -> lone_tilde prev c next = false.
Proof.
  intros Hc. unfold lone_tilde. rewrite bool_decide_eq_false_2 by exact Hc.
  reflexivity.
Qed.

Lemma lone_tilde_after prev : lone_tilde (Some tilde) tilde prev = false.
Proof. unfold lone_tilde. destruct (bool_decide (tilde = tilde)); reflexivity. Qed.

Lemma lone_tilde_before prev : lone_tilde prev tilde (Some tilde) = false.
Proof.
  unfold lone_tilde.
  destruct (bool_decide (tilde = tilde)), (bool_decide (prev = Some tilde));
    reflexivity.
Qed.

Lemma split_lone_keep prev c rest :
  lone_tilde prev c (head rest) = false ->
  split_lone prev (c :: rest)
  = match split_lone (Some c) rest with
    | seg :: segs => (c :: seg) :: segs
    | [] => [[c]]
    end.
Proof. intros H. cbn [split_lone]. rewrite H. reflexivity. Qed.

Lemma split_lone_cut prev rest :
  prev <> Some tilde -> head rest <> Some tilde ->
  split_lone prev (tilde :: rest) = [] :: split_lone (Some tilde) rest.
Proof.
  intros Hprev Hnext. cbn [split_lone]. unfold lone_tilde.
  rewrite bool_decide_eq_true_2 by reflexivity.
  rewrite (bool_decide_eq_false_2 _ Hprev), (bool_decide_eq_false_2 _ Hnext).
  reflexivity.
Qed.

(** No "~" of an escaped term is a separator, whatever surrounds it. *)
Lemma split_lone_escape t : forall prev, split_lone prev (escape t) = [escape t].
Proof.
  induction t as [|c t IH]; intros prev; [reflexivity|].
  rewrite escape_cons. destruct (decide (c = tilde)) as [->|Hc].
  - change (split_lone prev (tilde :: tilde :: escape t)
            = [tilde :: tilde :: escape t]).
    rewrite split_lone_keep by apply lone_tilde_before.
    rewrite split_lone_keep by apply lone_tilde_after.
    rewrite IH. reflexivity.
  - change (split_lone prev (c :: escape t) = [c :: escape t]).
    rewrite split_lone_keep by apply (lone_tilde_other _ _ _ Hc).
    rewrite IH. reflexivity.
Qed.

(** The "~" between two terms is a separator when neither neighbour is
    a "~". *)
Lemma split_lone_joined t : forall prev rest,
  t <> [] -> last t <> Some tilde -> head rest <> Some tilde ->
  split_lone prev (escape t ++ tilde :: rest)
  = escape t :: split_lone (Some tilde) rest.
Proof.
  induction t as [|c t IH]; intros prev rest Hne Hlast Hhead; [congruence|].
  destruct t as [|c' t].
  - assert (Hc : c <> tilde) by (simpl in Hlast; congruence).
    rewrite escape_cons, decide_False by exact Hc.
    change (split_lone prev (c :: tilde :: rest)
            = [c] :: split_lone (Some tilde) rest).
    rewrite split_lone_keep by apply (lone_tilde_other _ _ _ Hc).
    rewrite split_lone_cut by (congruence || exact Hhead). reflexivity.
  - assert (Hlast' : last (c' :: t) <> Some tilde) by exact Hlast.
    rewrite escape_cons. destruct (decide (c = tilde)) as [->|Hc].
    + change (split_lone prev
                (tilde :: tilde :: (escape (c' :: t) ++ tilde :: rest))
              = (tilde :: tilde :: escape (c' :: t))
                  :: split_lone (Some tilde) rest).
      rewrite split_lone_keep by apply lone_tilde_before.
      rewrite split_lone_keep by apply lone_tilde_after.
      rewrite (IH (Some tilde) rest) by (congruence || assumption).
      reflexivity.
    + change (split_lone prev (c :: (escape (c' :: t) ++ tilde :: rest))
              = (c :: escape (c' :: t)) :: split_lone (Some tilde) rest).
      rewrite split_lone_keep by apply (lone_tilde_other _ _ _ Hc).
      rewrite (IH (Some c) rest) by (congruence || assumption).
      reflexivity.
Qed.

Lemma escape_nil_inv t : escape t = [] -> t = [].
Proof.
  destruct t as [|c t]; [reflexivity|]. rewrite escape_cons.
  destruct (decide (c = tilde)); discriminate.
Qed.

Lemma head_escape t : head t <> Some tilde -> head (escape t) <> Some tilde.
Proof.
  destruct t as [|c t]; [easy|]. rewrite escape_cons. simpl. intros Hc.
  destruct (decide (c = tilde)) as [->|]; [congruence|exact Hc].
Qed.

Lemma encode_cons2 t t' rest :
  encode (t :: t' :: rest) = escape t ++ tilde :: encode (t' :: rest).
Proof. reflexivity. Qed.

Lemma split_encode terms : forall prev,
  separable terms ->
  filter (fun each : jsstring => 0 < length each)
    (split_lone prev (encode terms))
  = map escape terms.
Proof.
  induction terms as [|t rest IH]; intros prev Hsep; [reflexivity|].
  destruct Hsep as (Hne & Hadj & Hrest).
  assert (Hlen : 0 < length (escape t)).
  { destruct (escape t) eqn:He; [|simpl; lia].
    destruct (Hne (escape_nil_inv _ He)). }
  destruct rest as [|t' rest].
  - change (encode [t]) with (escape t). rewrite split_lone_escape.
    rewrite filter_cons_True by exact Hlen. reflexivity.
  - destruct Hadj as [Hlast Hhead].
    rewrite encode_cons2, split_lone_joined; [| exact Hne | exact Hlast |].
    + rewrite filter_cons_True by exact Hlen.
      rewrite (IH (Some tilde) Hrest). reflexivity.
    + destruct rest as [|t'' rest].
      * change (encode [t']) with (escape t'). apply head_escape, Hhead.
      * rewrite encode_cons2. destruct Hrest as (Hne' & _ & _).
        pose proof (head_escape _ Hhead) as Hh.
        destruct (escape t') eqn:He; [|exact Hh].
        destruct (Hne' (escape_nil_inv _ He)).
Qed.

(** The round trip of the codec, where it holds: when no term is empty
    and no "~" at an end of a term touches a separator. *)
Lemma decode_encode_separable terms :
  separable terms -> decode (encode terms) = terms.
Proof.
  intros Hsep. unfold decode. rewrite (split_encode terms None Hsep).
  rewrite <- list_fmap_compose.
  induction terms as [|t rest IH]; [reflexivity|].
  simpl. rewrite unescape_escape. f_equal. apply IH, Hsep.
Qed.

End CodecFacts.

(** C1 at a term that starts with "~": the separator is not the only "~"
    of its run, the fragment is not split and the two terms come back as
    one. *)
Theorem decode_encode_boundary_tilde :
  encode [js "a"; js "~b"] = js "a~~~b"
  /\ decode (encode [js "a"; js "~b"]) = [js "a~~b"]
  /\ decode (encode [js "a"; js "~b"]) <> [js "a"; js "~b"].
Proof.
  split; [vm_compute; reflexivity|]. split; [vm_compute; reflexivity|].
  vm_compute. discriminate.
Qed.

(** ** Counting the code units that are not "~" *)
Section PlainFacts.

Lemma plain_cons c s :
  plain (c :: s) = (if decide (c = tilde) then 0 else 1) + plain s.
Proof.
  unfold plain. rewrite filter_cons.
  destruct (decide (c <> tilde)), (decide (c = tilde));
    (reflexivity || contradiction).
Qed.

Lemma plain_app s1 s2 : plain (s1 ++ s2) = plain s1 + plain s2.
Proof. unfold plain. rewrite filter_app, length_app. reflexivity. Qed.

Lemma plain_escape t : plain (escape t) = plain t.
Proof.
  induction t as [|c t IH]; [reflexivity|].
  rewrite escape_cons, plain_app, IH, plain_cons.
  destruct (decide (c = tilde)) as [->|Hc]; [reflexivity|].
  rewrite plain_cons, decide_False by exact Hc. reflexivity.
Qed.

Lemma plain_encode terms : plain (encode terms) = total_plain terms.
Proof.
  induction terms as [|t rest IH]; [reflexivity|].
  destruct rest as [|t' rest].
  - change (encode [t]) with (escape t). unfold total_plain. simpl.
    rewrite plain_escape. lia.
  - rewrite encode_cons2, plain_app, plain_cons, IH, plain_escape.
    rewrite decide_True by reflexivity. reflexivity.
Qed.

Lemma plain_unescape : forall s, plain (unescape s) = plain s.
Proof.
  apply scan_ind; [reflexivity | reflexivity |].
  intros c d s IH1 IH2.
  destruct (decide (c = tilde /\ d = tilde)) as [[-> ->]|Hcd].
  - rewrite unescape_pair, !plain_cons, IH1. reflexivity.
  - rewrite (unescape_keep _ _ _ Hcd), (plain_cons c (unescape _)), IH2.
    rewrite <- plain_cons. reflexivity.
Qed.

Lemma total_plain_split s : forall prev, total_plain (split_lone prev s) = plain s.
Proof.
  induction s as [|c s IH]; intros prev; [reflexivity|].
  cbn [split_lone]. destruct (lone_tilde prev c (head s)) eqn:Hlone.
  - unfold lone_tilde in Hlone.
    destruct (bool_decide (c = tilde)) eqn:Hc; [|discriminate].
    apply bool_decide_eq_true in Hc. subst c.
    rewrite plain_cons, decide_True by reflexivity.
    unfold total_plain in *. simpl. apply IH.
  - specialize (IH (Some c)). unfold total_plain in *.
    destruct (split_lone (Some c) s) as [|seg segs]; simpl in *.
    + rewrite !plain_cons. change (plain []) with 0. lia.
    + rewrite !plain_cons. lia.
Qed.

Lemma total_plain_nonempty l :
  total_plain (filter (fun each : jsstring => 0 < length each) l)
  = total_plain l.
Proof.
  induction l as [|x l IH]; [reflexivity|].
  rewrite filter_cons. destruct (decide (0 < length x)) as [Hx|Hx].
  - unfold total_plain in *. simpl. rewrite IH. reflexivity.
  - destruct x; [|simpl in Hx; lia]. exact IH.
Qed.

Lemma total_plain_decode param : total_plain (decode param) = plain param.
Proof.
  unfold decode. rewrite <- (total_plain_split param None).
  rewrite <- (total_plain_nonempty (split_lone None param)).
  generalize (filter (fun each : jsstring => 0 < length each)
                (split_lone None param)).
  intros l. induction l as [|x l IH]; [reflexivity|].
  unfold total_plain in *. simpl. rewrite plain_unescape, IH. reflexivity.
Qed.

End PlainFacts.

(** ** [encodeURIComponent] *)
Section URIFacts.

Local Abbreviation plain_char := (fun c : char => unescaped c = true).

Lemma encodeURIComponent_cons c rest :
  encodeURIComponent (c :: rest)
  = if unescaped c then cons c <$> encodeURIComponent rest
    else if trailing_surrogate c then None
    else if leading_surrogate c then
      match rest with
      | d :: rest' =>
          if trailing_surrogate d then
            app (escape_code_point
                   ((c - 55296) * 1024 + (d - 56320) + 65536)%N)
              <$> encodeURIComponent rest'
          else None
      | [] => None
      end
    else app (escape_code_point c) <$> encodeURIComponent rest.
Proof. reflexivity. Qed.

Lemma unescaped_not_amp c : unescaped c = true -> c <> amp.
Proof. intros H ->. vm_compute in H. discriminate H. Qed.

Lemma escaped_not_tilde c : unescaped c = false -> c <> tilde.
Proof. intros H ->. vm_compute in H. discriminate H. Qed.

Lemma hex_digit_not_amp d : hex_digit d <> amp.
Proof. unfold hex_digit, amp. destruct (d <? 10)%N; lia. Qed.

Lemma percent_escapes_no_amp octets : amp ∉ flat_map percent_escape octets.
Proof.
  induction octets as [|o octets IH]; simpl; [apply not_elem_of_nil|].
  repeat (apply not_elem_of_cons; split);
    [discriminate | apply not_eq_sym, hex_digit_not_amp
     | apply not_eq_sym, hex_digit_not_amp | exact IH].
Qed.

(** No "&" survives [encodeURIComponent]. *)
Lemma encodeURIComponent_no_amp :
  forall s e, encodeURIComponent s = Some e -> amp ∉ e.
Proof.
  apply (scan_ind (fun s => forall e, encodeURIComponent s = Some e -> amp ∉ e)).
  - intros e [= <-]. apply not_elem_of_nil.
  - intros c e He. rewrite encodeURIComponent_cons in He.
    destruct (unescaped c) eqn:Hu.
    + injection He as <-. apply not_elem_of_cons.
      split; [apply not_eq_sym, unescaped_not_amp, Hu | apply not_elem_of_nil].
    + destruct (trailing_surrogate c); [discriminate|].
      destruct (leading_surrogate c); [discriminate|].
      injection He as <-. rewrite app_nil_r. apply percent_escapes_no_amp.
  - intros c d s IH1 IH2 e He. rewrite encodeURIComponent_cons in He.
    destruct (unescaped c) eqn:Hu.
    + apply fmap_Some in He as (e' & He' & ->). apply not_elem_of_cons.
      split; [apply not_eq_sym, unescaped_not_amp, Hu | exact (IH2 _ He')].
    + destruct (trailing_surrogate c); [discriminate|].
      destruct (leading_surrogate c).
      * destruct (trailing_surrogate d); [|discriminate].
        apply fmap_Some in He as (e' & He' & ->). apply not_elem_of_app.
        split; [apply percent_escapes_no_amp | exact (IH1 _ He')].
      * apply fmap_Some in He as (e' & He' & ->). apply not_elem_of_app.
        split; [apply percent_escapes_no_amp | exact (IH2 _ He')].
Qed.

Lemma plain_percent_escapes octets :
  length octets <= plain (flat_map percent_escape octets).
Proof.
  induction octets as [|o octets IH]; [reflexivity|].
  change (flat_map percent_escape (o :: octets))
    with (percent :: hex_digit (N.shiftr o 4) :: hex_digit (N.land o 15)
            :: flat_map percent_escape octets).
  rewrite !plain_cons. rewrite (decide_False (P := percent = tilde)) by discriminate.
  simpl. lia.
Qed.

Lemma utf8_length cp :
  1 <= length (utf8 cp)
  /\ ((128 <= cp)%N -> 2 <= length (utf8 cp))
  /\ ((65536 <= cp)%N -> length (utf8 cp) = 4).
Proof.
  unfold utf8.
  destruct (N.ltb_spec cp 128); [simpl; repeat split; lia|].
  destruct (N.ltb_spec cp 2048); [simpl; repeat split; lia|].
  destruct (N.ltb_spec cp 65536); simpl; repeat split; lia.
Qed.

(** An escaped code point takes at least two code units other than "~". *)
Lemma plain_escape_code_point cp :
  2 <= plain (escape_code_point cp)
  /\ ((65536 <= cp)%N -> 4 <= plain (escape_code_point cp)).
Proof.
  destruct (utf8_length cp) as (_ & H2 & H4).
  pose proof (plain_percent_escapes (utf8 cp)) as Hlen.
  fold (escape_code_point cp) in Hlen. split.
  - destruct (N.ltb_spec cp 128) as [Hlt|Hge]; [|specialize (H2 Hge); lia].
    unfold escape_code_point, utf8.
    rewrite (proj2 (N.ltb_lt cp 128) Hlt). simpl.
    rewrite !plain_cons.
    rewrite (decide_False (P := percent = tilde)) by discriminate.
    rewrite (decide_False (P := hex_digit (N.shiftr cp 4) = tilde)); [lia|].
    assert (N.shiftr cp 4 < 8)%N.
    { rewrite N.shiftr_div_pow2. change (2 ^ 4)%N with 16%N.
      apply N.Div0.div_lt_upper_bound. lia. }
    unfold hex_digit, tilde. destruct (N.shiftr cp 4 <? 10)%N; lia.
  - intros Hge. specialize (H4 Hge). lia.
Qed.

(** [encodeURIComponent] never lowers the count of code units other than
    "~", and keeps it only on strings it leaves unchanged. *)
Lemma encodeURIComponent_plain :
  forall s e,
    encodeURIComponent s = Some e ->
    plain s <= plain e /\ (plain e <= plain s -> Forall plain_char s).
Proof.
  apply (scan_ind (fun s => forall e, encodeURIComponent s = Some e ->
           plain s <= plain e /\ (plain e <= plain s -> Forall plain_char s))).
  - intros e [= <-]. split; [reflexivity | constructor].
  - intros c e He. rewrite encodeURIComponent_cons in He.
    destruct (unescaped c) eqn:Hu.
    + injection He as <-. split; [reflexivity|]. intros _.
      constructor; [exact Hu | constructor].
    + destruct (trailing_surrogate c); [discriminate|].
      destruct (leading_surrogate c); [discriminate|].
      injection He as <-. rewrite app_nil_r.
      destruct (plain_escape_code_point c) as [H2 _].
      rewrite plain_cons. change (plain []) with 0.
      destruct (decide (c = tilde)); split; lia.
  - intros c d s IH1 IH2 e He. rewrite encodeURIComponent_cons in He.
    destruct (unescaped c) eqn:Hu.
    + apply fmap_Some in He as (e' & He' & ->).
      destruct (IH2 _ He') as [Hle Hall]. rewrite !(plain_cons c).
      split; [lia|]. intros Hback. constructor; [exact Hu|]. apply Hall. lia.
    + destruct (trailing_surrogate c); [discriminate|].
      destruct (leading_surrogate c).
      * destruct (trailing_surrogate d); [|discriminate].
        apply fmap_Some in He as (e' & He' & ->).
        destruct (IH1 _ He') as [Hle _].
        destruct (plain_escape_code_point
                    ((c - 55296) * 1024 + (d - 56320) + 65536)%N) as [_ H4].
        specialize (H4 ltac:(lia)).
        rewrite plain_app, (plain_cons c), (plain_cons d).
        destruct (decide (c = tilde)), (decide (d = tilde)); split; lia.
      * apply fmap_Some in He as (e' & He' & ->).
        destruct (IH2 _ He') as [Hle _].
        destruct (plain_escape_code_point c) as [H2 _].
        rewrite plain_app, (plain_cons c).
        rewrite (decide_False (P := c = tilde)) by exact (escaped_not_tilde _ Hu).
        split; lia.
Qed.

Lemma encodeURIComponent_unescaped s :
  Forall plain_char s -> encodeURIComponent s = Some s.
Proof.
  induction 1 as [|c s Hc _ IH]; [reflexivity|].
  rewrite encodeURIComponent_cons, Hc, IH. reflexivity.
Qed.

Lemma Forall_escape (P : char -> Prop) t : Forall P (escape t) -> Forall P t.
Proof.
  induction t as [|c t IH]; [constructor|].
  rewrite escape_cons. intros H. apply Forall_app in H as [Hc Ht].
  constructor; [|exact (IH Ht)].
  destruct (decide (c = tilde)) as [->|]; inversion Hc; assumption.
Qed.

Lemma Forall_encode (P : char -> Prop) terms :
  Forall P (encode terms) -> Forall (Forall P) terms.
Proof.
  induction terms as [|t rest IH]; [constructor|].
  destruct rest as [|t' rest].
  - change (encode [t]) with (escape t). intros H.
    constructor; [exact (Forall_escape _ _ H) | constructor].
  - rewrite encode_cons2. intros H. apply Forall_app in H as [Ht Hrest].
    constructor; [exact (Forall_escape _ _ Ht)|].
    apply IH. inversion Hrest; assumption.
Qed.

End URIFacts.

(** ** The highlight parameter *)
Section ParameterFacts.

Import Highlighter.

Lemma startsWith_app prefix s : startsWith (prefix ++ s) prefix = true.
Proof.
  induction prefix as [|p prefix IH]; [destruct s; reflexivity|].
  simpl. rewrite decide_True by reflexivity. exact IH.
Qed.

(** The value comes back as it stands in the search string. *)
Lemma getQueryParamter_highlight pathname value :
  amp ∉ value ->
  getQueryParamter
    {| pathname := pathname; search := js "?highlight=" ++ value |}
    (js "highlight")
  = Some value.
Proof.
  intros Hamp. unfold getQueryParamter.
  change (search {| pathname := pathname; search := js "?highlight=" ++ value |})
    with (qmark :: (js "highlight=" ++ value)).
  cbv beta iota.
  destruct (decide (qmark = qmark)) as [_|Hn]; [|destruct Hn; reflexivity].
  rewrite split_on_absent.
  - change (js "highlight" ++ js "=") with (js "highlight=").
    cbn [first_pair]. rewrite startsWith_app, drop_app_length. reflexivity.
  - apply not_elem_of_app. split; [|exact Hamp].
    vm_compute. intros H. apply list_elem_of_In in H. simpl in H.
    repeat (destruct H as [H|H]; [discriminate H|]). exact H.
Qed.

End ParameterFacts.

(** C10: the parameter is read from the search string as it stands, so what
    is decoded on arrival is the percent-encoded string; the terms that come
    back are the original ones only when [encodeURIComponent] leaves every
    term unchanged. *)
Theorem url_round_trip_only_if_unchanged :
  forall pathname ts,
    (forall component,
        encodeURIComponent (encode ts) = Some component ->
        Highlighter.url_round_trip pathname ts = Some (decode component))
    /\ (Highlighter.url_round_trip pathname ts = Some ts ->
        Forall (fun t => encodeURIComponent t = Some t) ts).
Proof.
  intros pathname ts.
  assert (Hverbatim : forall component,
             encodeURIComponent (encode ts) = Some component ->
             Highlighter.url_round_trip pathname ts = Some (decode component)).
  { intros component He. unfold Highlighter.url_round_trip. rewrite He. simpl.
    rewrite (getQueryParamter_highlight _ _ (encodeURIComponent_no_amp _ _ He)).
    reflexivity. }
  split; [exact Hverbatim|].
  intros Hback.
  destruct (encodeURIComponent (encode ts)) as [component|] eqn:He.
  - rewrite (Hverbatim component eq_refl) in Hback. injection Hback as Hdec.
    destruct (encodeURIComponent_plain _ _ He) as [_ Hall].
    assert (Hcount : plain component <= plain (encode ts)).
    { rewrite plain_encode, <- Hdec at 1. rewrite total_plain_decode. lia. }
    apply Forall_encode in Hall; [|exact Hcount].
    eapply Forall_impl; [exact Hall|].
    intros t Ht. apply encodeURIComponent_unescaped, Ht.
  - unfold Highlighter.url_round_trip in Hback. rewrite He in Hback.
    discriminate Hback.
Qed.

Lemma url_round_trip_only_if_unchanged_witness :
  Highlighter.url_round_trip (js "/docs/install") [js "install"; js "guide"]
  = Some [js "install"; js "guide"]
  /\ Forall (fun t => encodeURIComponent t = Some t) [js "install"; js "guide"].
Proof.
  assert (H : Highlighter.url_round_trip (js "/docs/install")
                [js "install"; js "guide"]
              = Some [js "install"; js "guide"]) by (vm_compute; reflexivity).
  split; [exact H|].
  exact (proj2 (url_round_trip_only_if_unchanged (js "/docs/install")
                  [js "install"; js "guide"]) H).
Defined.

(** A term with a reserved character does not come back. *)
Example url_round_trip_changed_term :
  Highlighter.url_round_trip (js "/docs/install") [js "c++"]
  = Some [js "c%2B%2B"].
Proof. vm_compute. reflexivity. Qed.

(** ** Further properties of the codec *)
Section CodecMore.

Lemma split_lone_nonnil prev s : split_lone prev s <> [].
Proof.
  destruct s as [|c s]; cbn [split_lone]; [discriminate|].
  destruct (lone_tilde prev c (head s)); [discriminate|].
  destruct (split_lone (Some c) s); discriminate.
Qed.

Lemma split_lone_keep_length prev c rest :
  lone_tilde prev c (head rest) = false ->
  length (split_lone prev (c :: rest)) = length (split_lone (Some c) rest).
Proof.
  intros H. rewrite (split_lone_keep _ _ _ H).
  pose proof (split_lone_nonnil (Some c) rest) as Hne.
  destruct (split_lone (Some c) rest); [congruence | reflexivity].
Qed.

(** A separator that touches a "~" of a neighbour does not split. *)
Lemma split_lone_glued t : forall prev rest,
  t <> [] -> last t = Some tilde \/ head rest = Some tilde ->
  length (split_lone prev (escape t ++ tilde :: rest))
  = length (split_lone (Some tilde) rest).
Proof.
  induction t as [|c t IH]; intros prev rest Hne Htouch; [congruence|].
  destruct t as [|c' t].
  - rewrite escape_cons. change (escape []) with (@nil char).
    rewrite app_nil_r. destruct (decide (c = tilde)) as [->|Hc].
    + change (length (split_lone prev (tilde :: tilde :: tilde :: rest))
              = length (split_lone (Some tilde) rest)).
      rewrite split_lone_keep_length by apply lone_tilde_before.
      rewrite split_lone_keep_length by apply lone_tilde_after.
      rewrite split_lone_keep_length by apply lone_tilde_after.
      reflexivity.
    + destruct Htouch as [Hlast|Hhead]; [simpl in Hlast; congruence|].
      change (length (split_lone prev (c :: tilde :: rest))
              = length (split_lone (Some tilde) rest)).
      rewrite split_lone_keep_length by apply (lone_tilde_other _ _ _ Hc).
      rewrite split_lone_keep_length; [reflexivity|].
      rewrite Hhead. apply lone_tilde_before.
  - assert (Htouch' : last (c' :: t) = Some tilde \/ head rest = Some tilde)
      by exact Htouch.
    rewrite escape_cons. destruct (decide (c = tilde)) as [->|Hc].
    + change (length (split_lone prev
                (tilde :: tilde :: (escape (c' :: t) ++ tilde :: rest)))
              = length (split_lone (Some tilde) rest)).
      rewrite split_lone_keep_length by apply lone_tilde_before.
      rewrite split_lone_keep_length by apply lone_tilde_after.
      apply IH; [discriminate | exact Htouch'].
    + change (length (split_lone prev
                (c :: (escape (c' :: t) ++ tilde :: rest)))
              = length (split_lone (Some tilde) rest)).
      rewrite split_lone_keep_length by apply (lone_tilde_other _ _ _ Hc).
      apply IH; [discriminate | exact Htouch'].
Qed.

Lemma head_encode_cons t rest :
  t <> [] -> head (encode (t :: rest)) = Some tilde <-> head t = Some tilde.
Proof.
  intros Hne. destruct t as [|c t]; [congruence|].
  assert (H : head (encode ((c :: t) :: rest)) = head (escape (c :: t))).
  { destruct rest as [|t' rest].
    - reflexivity.
    - rewrite encode_cons2, escape_cons.
      destruct (decide (c = tilde)); reflexivity. }
  rewrite H, escape_cons. simpl.
  destruct (decide (c = tilde)) as [->|Hc]; simpl; [tauto|].
  split; intros [= ->]; congruence.
Qed.

(** There are never more segments than terms. *)
Lemma segments_le terms : forall prev,
  Forall (fun t => t <> []) terms -> terms <> [] ->
  length (split_lone prev (encode terms)) <= length terms.
Proof.
  induction terms as [|t rest IH]; intros prev Hne Hnil; [congruence|].
  apply Forall_cons in Hne as [Ht Hrest].
  destruct rest as [|t' rest].
  - change (encode [t]) with (escape t). rewrite split_lone_escape.
    reflexivity.
  - rewrite encode_cons2.
    specialize (IH (Some tilde) Hrest ltac:(discriminate)).
    destruct (decide (last t = Some tilde)) as [Hl|Hl].
    { rewrite split_lone_glued by auto. simpl in *. lia. }
    destruct (decide (head (encode (t' :: rest)) = Some tilde)) as [Hh|Hh].
    { rewrite split_lone_glued by auto. simpl in *. lia. }
    rewrite split_lone_joined by assumption. simpl in *. lia.
Qed.

(** As many segments as terms only when every separator splits. *)
Lemma segments_all terms : forall prev,
  Forall (fun t => t <> []) terms ->
  length (split_lone prev (encode terms)) = length terms ->
  separable terms.
Proof.
  induction terms as [|t rest IH]; intros prev Hne Hlen; [exact I|].
  apply Forall_cons in Hne as [Ht Hrest].
  destruct rest as [|t' rest]; [repeat split; assumption|].
  rewrite encode_cons2 in Hlen.
  pose proof (segments_le (t' :: rest) (Some tilde) Hrest ltac:(discriminate))
    as Hle.
  assert (Ht' : t' <> []) by (apply Forall_cons in Hrest as [? _]; assumption).
  destruct (decide (last t = Some tilde)) as [Hl|Hl].
  { rewrite split_lone_glued in Hlen by auto. simpl in *. lia. }
  destruct (decide (head (encode (t' :: rest)) = Some tilde)) as [Hh|Hh].
  { rewrite split_lone_glued in Hlen by auto. simpl in *. lia. }
  rewrite split_lone_joined in Hlen by assumption.
  split; [exact Ht|]. split.
  - split; [exact Hl|]. intros Hhead. apply Hh.
    apply head_encode_cons; assumption.
  - apply (IH (Some tilde) Hrest). simpl in *. lia.
Qed.

Lemma unescape_nonempty each : each <> [] -> unescape each <> [].
Proof.
  destruct each as [|c [|d rest]]; [congruence | discriminate |].
  intros _. cbn [unescape].
  destruct (bool_decide (c = tilde) && bool_decide (d = tilde)); discriminate.
Qed.

Lemma escape_app t1 t2 : escape (t1 ++ t2) = escape t1 ++ escape t2.
Proof. unfold escape. apply flat_map_app. Qed.

Lemma encode_cons_cong b l1 l2 :
  encode l1 = encode l2 -> l1 <> [] -> l2 <> [] ->
  encode (b :: l1) = encode (b :: l2).
Proof.
  intros Heq H1 H2. destruct l1 as [|x1 l1], l2 as [|x2 l2]; try congruence.
  rewrite !encode_cons2, Heq. reflexivity.
Qed.

Lemma without_tildes_unescape :
  forall s, without_tildes (unescape s) = without_tildes s.
Proof.
  unfold without_tildes.
  apply scan_ind; [reflexivity | reflexivity |].
  intros c d s IH1 IH2.
  destruct (decide (c = tilde /\ d = tilde)) as [[-> ->]|Hcd].
  - rewrite unescape_pair, !filter_cons, IH1.
    destruct (decide (tilde <> tilde)); [congruence | reflexivity].
  - rewrite (unescape_keep _ _ _ Hcd), (filter_cons _ c (unescape _)), IH2.
    rewrite (filter_cons _ c (d :: s)). reflexivity.
Qed.

Lemma without_tildes_split s : forall prev,
  without_tildes (concat (split_lone prev s)) = without_tildes s.
Proof.
  unfold without_tildes.
  induction s as [|c s IH]; intros prev; [reflexivity|].
  cbn [split_lone]. destruct (lone_tilde prev c (head s)) eqn:Hlone.
  - unfold lone_tilde in Hlone.
    destruct (bool_decide (c = tilde)) eqn:Hc; [|discriminate].
    apply bool_decide_eq_true in Hc. subst c.
    rewrite filter_cons_False by (intros H; apply H; reflexivity).
    simpl. apply IH.
  - specialize (IH (Some c)).
    pose proof (split_lone_nonnil (Some c) s) as Hne.
    destruct (split_lone (Some c) s) as [|seg segs]; [congruence|].
    simpl in *. rewrite !filter_cons, IH. reflexivity.
Qed.

Lemma concat_nonempty (l : list jsstring) :
  concat (filter (fun each : jsstring => 0 < length each) l) = concat l.
Proof.
  induction l as [|x l IH]; [reflexivity|].
  rewrite filter_cons. destruct (decide (0 < length x)) as [Hx|Hx].
  - simpl. rewrite IH. reflexivity.
  - destruct x; [exact IH | simpl in Hx; lia].
Qed.

Lemma decode_nonempty param : Forall (fun t => t <> []) (decode param).
Proof.
  unfold decode. apply Forall_fmap, Forall_forall.
  intros x Hx. apply list_elem_of_filter in Hx as [Hlen _]. simpl.
  apply unescape_nonempty. destruct x; [simpl in Hlen; lia | discriminate].
Qed.

Lemma decode_encode_only_separable terms :
  decode (encode terms) = terms -> separable terms.
Proof.
  intros Hback.
  assert (Hne : Forall (fun t => t <> []) terms)
    by (rewrite <- Hback; apply decode_nonempty).
  destruct terms as [|t rest]; [exact I|].
  apply (segments_all _ None Hne).
  pose proof (segments_le (t :: rest) None Hne ltac:(discriminate)) as Hle.
  assert (Hdec : length (decode (encode (t :: rest))) = length (t :: rest))
    by (rewrite Hback; reflexivity).
  unfold decode in Hdec. rewrite length_fmap in Hdec.
  pose proof (length_filter (fun each : jsstring => 0 < length each)
                (split_lone None (encode (t :: rest)))) as Hfil.
  lia.
Qed.

End CodecMore.

(** X1: the codec round trip holds exactly for the separable sequences:
    no term is empty and no "~" at an end of a term touches a separator. *)
Theorem codec_round_trip_iff :
  forall terms, decode (encode terms) = terms <-> separable terms.
Proof.
  intros terms. split;
    [apply decode_encode_only_separable | apply decode_encode_separable].
Qed.

Lemma codec_round_trip_iff_witness :
  separable [js "~a"; js "b~c"; js "d~"]
  /\ decode (encode [js "~a"; js "b~c"; js "d~"])
     = [js "~a"; js "b~c"; js "d~"].
Proof.
  assert (Hsep : separable [js "~a"; js "b~c"; js "d~"]).
  { vm_compute. repeat split; discriminate. }
  split; [exact Hsep|].
  exact (proj2 (codec_round_trip_iff [js "~a"; js "b~c"; js "d~"]) Hsep).
Defined.

(** X2: whatever the parameter, no decoded term is empty. *)
Theorem decode_terms_nonempty :
  forall param, Forall (fun t => t <> []) (decode param).
Proof. exact decode_nonempty. Qed.

(** X3: decoding only removes "~": the code units other than "~" of the
    decoded terms, read in order, are those of the parameter. *)
Theorem decode_keeps_other_units :
  forall param,
    without_tildes (concat (decode param)) = without_tildes param.
Proof.
  intros param. unfold decode.
  rewrite <- (without_tildes_split param None).
  rewrite <- (concat_nonempty (split_lone None param)).
  generalize (filter (fun each : jsstring => 0 < length each)
                (split_lone None param)).
  intros l. induction l as [|x l IH]; [reflexivity|].
  simpl. unfold without_tildes in *. rewrite !filter_app, IH.
  f_equal. apply without_tildes_unescape.
Qed.

(** X4: the encoding does not tell on which side of a separator a "~"
    stood: moving it across gives the same string. *)
Theorem encode_boundary_collision :
  forall before t1 t2 after,
    encode (before ++ [t1 ++ [tilde]; t2] ++ after)
    = encode (before ++ [t1; tilde :: t2] ++ after).
Proof.
  intros before t1 t2 after.
  assert (Hpair : forall after,
             encode ([t1 ++ [tilde]; t2] ++ after)
             = encode ([t1; tilde :: t2] ++ after)).
  { intros l. simpl app. destruct l as [|t3 l].
    - rewrite !encode_cons2. change (encode [t2]) with (escape t2).
      change (encode [tilde :: t2]) with (escape (tilde :: t2)).
      rewrite escape_app, escape_cons, decide_True by reflexivity.
      rewrite <- !app_assoc. reflexivity.
    - rewrite !encode_cons2.
      rewrite escape_app, (escape_cons tilde t2), decide_True by reflexivity.
      rewrite <- !app_assoc. reflexivity. }
  induction before as [|b before IH]; [apply Hpair|].
  simpl app. apply encode_cons_cong; [exact IH | |];
    destruct before; discriminate.
Qed.

(** ** [split] and [join] *)
Section SplitJoin.

Lemma join_cons2 sep x y rest :
  join sep (x :: y :: rest) = x ++ sep ++ join sep (y :: rest).
Proof. reflexivity. Qed.

Lemma join_push sep c seg segs :
  join sep ((c :: seg) :: segs) = c :: join sep (seg :: segs).
Proof. destruct segs; reflexivity. Qed.

Lemma split_on_clean sep s : Forall (fun seg => sep ∉ seg) (split_on sep s).
Proof.
  induction s as [|c s IH]; simpl.
  - constructor; [apply not_elem_of_nil | constructor].
  - destruct (decide (c = sep)) as [->|Hc].
    + constructor; [apply not_elem_of_nil | exact IH].
    + destruct (split_on sep s) as [|seg segs].
      * constructor; [|constructor].
        apply not_elem_of_cons. split; [congruence | apply not_elem_of_nil].
      * apply Forall_cons in IH as [Hseg Hsegs]. constructor; [|exact Hsegs].
        apply not_elem_of_cons. split; [congruence | exact Hseg].
Qed.

Lemma join_split_on sep : forall s, join [sep] (split_on sep s) = s.
Proof.
  induction s as [|c s IH]; [reflexivity|]. simpl.
  pose proof (split_on_nonempty sep s) as Hne.
  destruct (decide (c = sep)) as [->|Hc].
  - destruct (split_on sep s) as [|seg segs]; [congruence|].
    rewrite join_cons2, IH. reflexivity.
  - destruct (split_on sep s) as [|seg segs]; [congruence|].
    rewrite join_push, IH. reflexivity.
Qed.

Lemma split_on_join sep : forall arr,
  arr <> [] -> Forall (fun x => sep ∉ x) arr ->
  split_on sep (join [sep] arr) = arr.
Proof.
  induction arr as [|x arr IH]; intros Hne Hclean; [congruence|].
  apply Forall_cons in Hclean as [Hx Harr].
  destruct arr as [|y arr].
  - apply split_on_absent, Hx.
  - rewrite join_cons2. change ([sep] ++ ?l) with (sep :: l).
    rewrite (split_on_first _ _ _ Hx), IH by (discriminate || assumption).
    reflexivity.
Qed.

End SplitJoin.

(** X5: splitting on a separator and joining with it again gives the string
    back; and joining a non-empty list of strings free of the separator and
    splitting again gives the list back. *)
Theorem split_join_round_trip :
  forall sep,
    (forall s, join [sep] (split_on sep s) = s)
    /\ (forall arr,
          arr <> [] -> Forall (fun x => sep ∉ x) arr ->
          split_on sep (join [sep] arr) = arr).
Proof.
  intros sep. split; [apply join_split_on | apply split_on_join].
Qed.

Lemma split_join_round_trip_witness :
  split_on hashc (join [hashc] [js "/docs/install"; js "setup"])
  = [js "/docs/install"; js "setup"].
Proof.
  apply (proj2 (split_join_round_trip hashc)); [discriminate|].
  repeat constructor; vm_compute; intros H; apply list_elem_of_In in H;
    simpl in H; repeat (destruct H as [H|H]; [discriminate H|]); exact H.
Defined.

(** ** [getQueryParamter] *)
Section QueryParameter.

Import Highlighter.

Lemma startsWith_key k : forall name v,
  equals ∉ k -> equals ∉ name ->
  startsWith (k ++ equals :: v) (name ++ [equals]) = bool_decide (k = name).
Proof.
  induction k as [|c k IH]; intros [|n name] v Hk Hname; cbn [app startsWith].
  - destruct (decide (equals = equals)); [destruct v; reflexivity | congruence].
  - apply not_elem_of_cons in Hname as [Hn _].
    destruct (decide (equals = n)); [congruence | reflexivity].
  - apply not_elem_of_cons in Hk as [Hc _].
    destruct (decide (c = equals)); [congruence | reflexivity].
  - apply not_elem_of_cons in Hk as [_ Hk].
    apply not_elem_of_cons in Hname as [_ Hname].
    destruct (decide (c = n)) as [->|Hcn].
    + rewrite (IH name v Hk Hname).
      destruct (decide (k = name)) as [->|Hne].
      * rewrite !bool_decide_eq_true_2 by reflexivity. reflexivity.
      * rewrite !bool_decide_eq_false_2 by congruence. reflexivity.
    + rewrite bool_decide_eq_false_2 by congruence. reflexivity.
Qed.

Lemma first_pair_lookup name pairs :
  equals ∉ name ->
  Forall (fun kv : jsstring * jsstring => equals ∉ kv.1) pairs ->
  first_pair (name ++ [equals])
    (map (fun kv : jsstring * jsstring => kv.1 ++ equals :: kv.2) pairs)
  = first_value pairs name.
Proof.
  intros Hname. unfold first_value.
  induction 1 as [|[k v] pairs Hk _ IH]; [reflexivity|].
  cbn [map first_pair List.find fst snd]. simpl in Hk.
  rewrite (startsWith_key k name v Hk Hname).
  destruct (decide (k = name)) as [->|Hne].
  - rewrite bool_decide_eq_true_2 by reflexivity.
    replace (name ++ equals :: v) with ((name ++ [equals]) ++ v)
      by (rewrite <- app_assoc; reflexivity).
    rewrite drop_app_length. reflexivity.
  - rewrite bool_decide_eq_false_2 by exact Hne. exact IH.
Qed.

Lemma first_pair_clean prefix pairs value :
  Forall (fun p => amp ∉ p) pairs ->
  first_pair prefix pairs = Some value -> amp ∉ value.
Proof.
  induction 1 as [|p pairs Hp _ IH]; [discriminate|].
  cbn [first_pair]. destruct (startsWith p prefix); [|exact IH].
  intros [= <-] Hin. apply Hp.
  apply (subseteq_drop (length prefix) p). exact Hin.
Qed.

End QueryParameter.

(** X6: on the search string "?k1=v1&k2=v2..." built from pairs whose keys
    hold no "=" or "&" and whose values hold no "&", [getQueryParamter]
    returns the value of the first pair whose key is the name, and [null]
    when there is none. *)
Theorem getQueryParamter_first_value :
  forall pathname pairs name,
    equals ∉ name ->
    Forall (fun kv : jsstring * jsstring =>
              (equals ∉ kv.1) /\ (amp ∉ kv.1) /\ (amp ∉ kv.2)) pairs ->
    Highlighter.getQueryParamter
      {| Highlighter.pathname := pathname;
         Highlighter.search := search_of pairs |} name
    = first_value pairs name.
Proof.
  intros pathname pairs name Hname Hpairs.
  unfold Highlighter.getQueryParamter, search_of.
  cbn [Highlighter.search].
  destruct (decide (qmark = qmark)) as [_|Hn]; [|destruct Hn; reflexivity].
  change (js "=") with [equals].
  destruct pairs as [|kv pairs].
  - simpl. unfold first_value. simpl.
    destruct name; simpl; [reflexivity|reflexivity].
  - rewrite split_on_join.
    + apply first_pair_lookup; [exact Hname|].
      eapply Forall_impl; [exact Hpairs|]. intros ? (? & _); assumption.
    + discriminate.
    + apply Forall_fmap. eapply Forall_impl; [exact Hpairs|].
      intros [k v] (_ & Hk & Hv). simpl in *.
      apply not_elem_of_app. split; [exact Hk|].
      apply not_elem_of_cons. split; [discriminate | exact Hv].
Qed.

Lemma getQueryParamter_first_value_witness :
  Highlighter.getQueryParamter
    {| Highlighter.pathname := js "/docs/";
       Highlighter.search := js "?a=1&highlight=x~y&highlight=z" |}
    (js "highlight")
  = Some (js "x~y").
Proof.
  apply (getQueryParamter_first_value (js "/docs/")
           [(js "a", js "1"); (js "highlight", js "x~y");
            (js "highlight", js "z")] (js "highlight")).
  - vm_compute. intros H. apply list_elem_of_In in H. simpl in H.
    repeat (destruct H as [H|H]; [discriminate H|]). exact H.
  - repeat constructor; vm_compute; intros H; apply list_elem_of_In in H;
      simpl in H; repeat (destruct H as [H|H]; [discriminate H|]); exact H.
Defined.

(** X7: a value returned by [getQueryParamter] holds no "&", whatever the
    search string and the name. *)
Theorem getQueryParamter_value_clean :
  forall location name value,
    Highlighter.getQueryParamter location name = Some value -> amp ∉ value.
Proof.
  intros location name value. unfold Highlighter.getQueryParamter.
  apply first_pair_clean, split_on_clean.
Qed.

Lemma getQueryParamter_value_clean_witness :
  let location :=
    {| Highlighter.pathname := js "/docs/";
       Highlighter.search := js "?highlight=x~y&b=2" |} in
  Highlighter.getQueryParamter location (js "highlight") = Some (js "x~y")
  /\ amp ∉ js "x~y".
Proof.
  intros location.
  assert (H : Highlighter.getQueryParamter location (js "highlight")
              = Some (js "x~y")) by (vm_compute; reflexivity).
  split; [exact H|].
  exact (getQueryParamter_value_clean location (js "highlight") (js "x~y") H).
Defined.

(** ** The highlight effect *)
Section EffectFacts.

Lemma startsWith_prefix s : forall prefix,
  startsWith s prefix = true <-> prefix `prefix_of` s.
Proof.
  induction s as [|c s IH]; intros [|p prefix]; cbn [startsWith].
  - split; [intros _; apply prefix_nil | reflexivity].
  - split; [discriminate|]. intros H. apply prefix_nil_inv in H. discriminate.
  - split; [intros _; apply prefix_nil | reflexivity].
  - destruct (decide (c = p)) as [->|Hne].
    + rewrite IH. split; [apply prefix_cons | apply prefix_cons_inv_2].
    + split; [discriminate|]. intros H. apply prefix_cons_inv_1 in H.
      congruence.
Qed.

End EffectFacts.

(** X8: when the highlight parameter is present, the page has its content
    root and the parameter decodes to at least one term, the effect makes
    one DOM call, [mark] of the decoded terms on the root with
    [ignoreJoiners], and its cleanup is the [unmark] of that same root.  The
    root is the first [article] exactly when the path of the page starts
    with the base URL followed by the docs or the blog base path, and the
    first [main] otherwise. *)
Theorem highlight_effect_marks :
  forall docsBasePath blogBasePath location page baseUrl param root,
    Highlighter.getQueryParamter location (js "highlight") = Some param ->
    decode param <> [] ->
    (if decide ((baseUrl ++ docsBasePath)
                  `prefix_of` Highlighter.window_pathname page
                \/ (baseUrl ++ blogBasePath)
                     `prefix_of` Highlighter.window_pathname page)
     then Highlighter.article page else Highlighter.main page) = Some root ->
    Highlighter.highlight_effect docsBasePath blogBasePath location page baseUrl
    = {| Highlighter.mutations := [Highlighter.mark root (decode param) true];
         Highlighter.teardown := [Highlighter.unmark root true] |}.
Proof.
  intros docs blog location page baseUrl param root Hparam Hterms Hroot.
  unfold Highlighter.highlight_effect. rewrite Hparam.
  destruct param as [|c param]; [destruct Hterms; reflexivity|].
  assert (Hsel : (if Highlighter.isDocsOrBlog docs blog page baseUrl
                  then Highlighter.article page else Highlighter.main page)
                 = Some root).
  { rewrite <- Hroot. unfold Highlighter.isDocsOrBlog.
    destruct (decide _) as [[H|H]|Hno].
    - apply startsWith_prefix in H. rewrite H. reflexivity.
    - apply startsWith_prefix in H. rewrite H, orb_true_r. reflexivity.
    - destruct (startsWith _ (baseUrl ++ docs)) eqn:H1.
      { destruct Hno. left. apply startsWith_prefix, H1. }
      destruct (startsWith _ (baseUrl ++ blog)) eqn:H2; [|reflexivity].
      destruct Hno. right. apply startsWith_prefix, H2. }
  rewrite Hsel.
  destruct (decode (c :: param)) as [|t ts]; [congruence | reflexivity].
Qed.

Lemma highlight_effect_marks_witness :
  let location :=
    {| Highlighter.pathname := js "/docs/install";
       Highlighter.search := js "?highlight=install~guide" |} in
  let page :=
    {| Highlighter.window_pathname := js "/docs/install";
       Highlighter.article := Some 7; Highlighter.main := Some 2 |} in
  Highlighter.highlight_effect (js "docs") (js "blog") location page (js "/")
  = {| Highlighter.mutations :=
         [Highlighter.mark 7 [js "install"; js "guide"] true];
       Highlighter.teardown := [Highlighter.unmark 7 true] |}.
Proof.
  intros location page.
  apply (highlight_effect_marks (js "docs") (js "blog") location page (js "/")
           (js "install~guide") 7).
  - vm_compute. reflexivity.
  - vm_compute. discriminate.
  - vm_compute. reflexivity.
Defined.

(** ** The percent-encoded value *)
Section ComponentFacts.

Local Abbreviation url_safe :=
  (fun c : char => (c < 65)%N -> unescaped c = true \/ c = percent).

Lemma hex_digit_safe d : url_safe (hex_digit d).
Proof.
  unfold hex_digit. destruct (N.ltb_spec d 10) as [Hd|Hd]; intros Hlt; [|lia].
  left. unfold unescaped, between.
  rewrite (proj2 (N.leb_le 48 (48 + d)) ltac:(lia)).
  rewrite (proj2 (N.leb_le (48 + d) 57) ltac:(lia)).
  rewrite !orb_true_r. reflexivity.
Qed.

Lemma percent_escapes_safe octets :
  Forall url_safe (flat_map percent_escape octets).
Proof.
  induction octets as [|o octets IH]; [constructor|].
  change (flat_map percent_escape (o :: octets))
    with (percent :: hex_digit (N.shiftr o 4) :: hex_digit (N.land o 15)
            :: flat_map percent_escape octets).
  repeat (constructor; [first [apply hex_digit_safe | intros _; right; reflexivity]|]).
  exact IH.
Qed.

Lemma encodeURIComponent_safe :
  forall s e, encodeURIComponent s = Some e -> Forall url_safe e.
Proof.
  apply (scan_ind (fun s => forall e, encodeURIComponent s = Some e ->
                                      Forall url_safe e)).
  - intros e [= <-]. constructor.
  - intros c e He. rewrite encodeURIComponent_cons in He.
    destruct (unescaped c) eqn:Hu.
    + injection He as <-. constructor; [intros _; left; exact Hu | constructor].
    + destruct (trailing_surrogate c); [discriminate|].
      destruct (leading_surrogate c); [discriminate|].
      injection He as <-. rewrite app_nil_r. apply percent_escapes_safe.
  - intros c d s IH1 IH2 e He. rewrite encodeURIComponent_cons in He.
    destruct (unescaped c) eqn:Hu.
    + apply fmap_Some in He as (e' & He' & ->).
      constructor; [intros _; left; exact Hu | exact (IH2 _ He')].
    + destruct (trailing_surrogate c); [discriminate|].
      destruct (leading_surrogate c).
      * destruct (trailing_surrogate d); [|discriminate].
        apply fmap_Some in He as (e' & He' & ->). apply Forall_app.
        split; [apply percent_escapes_safe | exact (IH1 _ He')].
      * apply fmap_Some in He as (e' & He' & ->). apply Forall_app.
        split; [apply percent_escapes_safe | exact (IH2 _ He')].
Qed.

Lemma encodeURIComponent_total s :
  Forall (fun c => surrogate c = false) s -> is_Some (encodeURIComponent s).
Proof.
  induction 1 as [|c s Hc _ IH]; [eexists; reflexivity|].
  apply orb_false_elim in Hc as [Hlead Htrail].
  rewrite encodeURIComponent_cons, Hlead, Htrail.
  destruct IH as [e ->]. destruct (unescaped c); eexists; reflexivity.
Qed.

Lemma Forall_escape_intro (P : char -> Prop) t :
  P tilde -> Forall P t -> Forall P (escape t).
Proof.
  intros Ht. induction 1 as [|c t Hc _ IH]; [constructor|].
  rewrite escape_cons. apply Forall_app. split; [|exact IH].
  destruct (decide (c = tilde)); repeat constructor; assumption.
Qed.

Lemma Forall_encode_intro (P : char -> Prop) terms :
  P tilde -> Forall (Forall P) terms -> Forall P (encode terms).
Proof.
  intros Ht. induction 1 as [|t rest Hhd Hrest IH]; [constructor|].
  destruct rest as [|t' rest].
  - change (encode [t]) with (escape t). apply Forall_escape_intro; assumption.
  - rewrite encode_cons2. apply Forall_app.
    split; [apply Forall_escape_intro; assumption|].
    constructor; [exact Ht | exact IH].
Qed.

End ComponentFacts.

(** X9: the terms come back from the URL exactly when the sequence is
    separable and every code unit of every term is one that
    [encodeURIComponent] leaves alone (letters, digits and [-_.!~*'()]). *)
Theorem url_round_trip_iff :
  forall pathname ts,
    Highlighter.url_round_trip pathname ts = Some ts
    <-> separable ts /\ Forall (Forall (fun c => unescaped c = true)) ts.
Proof.
  intros pathname ts. split.
  - intros Hback. unfold Highlighter.url_round_trip in Hback.
    destruct (encodeURIComponent (encode ts)) as [component|] eqn:He;
      [|discriminate Hback].
    simpl in Hback.
    rewrite (getQueryParamter_highlight _ _ (encodeURIComponent_no_amp _ _ He))
      in Hback.
    injection Hback as Hdec.
    destruct (encodeURIComponent_plain _ _ He) as [_ Hall].
    assert (Hcount : plain component <= plain (encode ts)).
    { rewrite plain_encode, <- Hdec at 1. rewrite total_plain_decode. lia. }
    specialize (Hall Hcount).
    rewrite (encodeURIComponent_unescaped _ Hall) in He.
    injection He as <-.
    split; [exact (decode_encode_only_separable _ Hdec)|].
    apply Forall_encode, Hall.
  - intros [Hsep Hall]. unfold Highlighter.url_round_trip.
    assert (He : encodeURIComponent (encode ts) = Some (encode ts)).
    { apply encodeURIComponent_unescaped, Forall_encode_intro;
        [reflexivity | exact Hall]. }
    rewrite He. simpl.
    rewrite (getQueryParamter_highlight _ _ (encodeURIComponent_no_amp _ _ He)).
    simpl. rewrite (decode_encode_separable _ Hsep). reflexivity.
Qed.

Lemma url_round_trip_iff_witness :
  Highlighter.url_round_trip (js "/docs/api") [js "~/bin"; js "c++"]
  <> Some [js "~/bin"; js "c++"]
  /\ Highlighter.url_round_trip (js "/docs/api") [js "get_user"; js "v1.2"]
     = Some [js "get_user"; js "v1.2"].
Proof.
  split.
  - intros H.
    apply (url_round_trip_iff (js "/docs/api") [js "~/bin"; js "c++"]) in H
      as [_ Hall].
    apply Forall_cons in Hall as [Hbin _].
    apply Forall_cons in Hbin as [_ Hbin].
    apply Forall_cons in Hbin as [Hslash _].
    vm_compute in Hslash. discriminate Hslash.
  - apply (url_round_trip_iff (js "/docs/api") [js "get_user"; js "v1.2"]).
    split; [vm_compute; repeat split; discriminate|].
    repeat constructor.
Defined.

(** X10: selecting a suggestion that has its document pushes a URL, without
    exception, whenever no term holds a surrogate code unit. *)
Theorem selected_pushes :
  forall doc sc ts,
    Forall (Forall (fun c => surrogate c = false)) ts ->
    exists url,
      Navigation.selected {| document := Some doc; score := sc; terms := ts |}
      = inr url.
Proof.
  intros doc sc ts Hts. unfold Navigation.selected. simpl.
  destruct (encodeURIComponent_total (encode ts)) as [component ->].
  - apply Forall_encode_intro; [reflexivity | exact Hts].
  - eexists. reflexivity.
Qed.

Lemma selected_pushes_witness :
  exists url,
    Navigation.selected
      {| document := Some {| id := IdNum 4; pageTitle := js "Caf";
                             sectionTitle := js "Menu";
                             sectionRoute := js "/docs/cafe#menu" |};
         score := 2; terms := [js "caf" ++ [233%N]; js "menu"] |}
    = inr url.
Proof.
  apply selected_pushes. repeat constructor.
Defined.

(** X11: in the percent-encoded value of any terms, a code unit below "A"
    is a digit, one of [-_.!~*'()] or "%"; so the value holds none of the
    delimiters "#", "&", "?" and "=" of the URL it is put in. *)
Theorem component_holds_no_delimiter :
  forall ts component,
    encodeURIComponent (encode ts) = Some component ->
    Forall (fun c => (c < 65)%N -> unescaped c = true \/ c = percent) component
    /\ (hashc ∉ component) /\ (amp ∉ component)
    /\ (qmark ∉ component) /\ (equals ∉ component).
Proof.
  intros ts component He.
  pose proof (encodeURIComponent_safe _ _ He) as Hsafe.
  split; [exact Hsafe|].
  rewrite Forall_forall in Hsafe.
  repeat split; intros Hin; destruct (Hsafe _ Hin ltac:(reflexivity)) as [H|H];
    vm_compute in H; discriminate H.
Qed.

Lemma component_holds_no_delimiter_witness :
  encodeURIComponent (encode [js "a&b"; js "c#d=e?"])
  = Some (js "a%26b~c%23d%3De%3F")
  /\ hashc ∉ js "a%26b~c%23d%3De%3F".
Proof.
  assert (H : encodeURIComponent (encode [js "a&b"; js "c#d=e?"])
              = Some (js "a%26b~c%23d%3De%3F")) by (vm_compute; reflexivity).
  split; [exact H|].
  exact (proj1 (proj2 (component_holds_no_delimiter _ _ H))).
Defined.

(** ** Further properties of the ranker *)
Section RankerMore.

Import ResultRanker.

Lemma find_document_none documents result :
  find_document documents result = None
  <-> Forall (fun d => toString (id d) <> ref result) documents.
Proof.
  unfold find_document. induction documents as [|d documents IH]; simpl.
  - split; [constructor | reflexivity].
  - destruct (decide (toString (id d) = ref result)) as [Heq|Hne].
    + rewrite bool_decide_eq_true_2 by exact Heq.
      split; [discriminate|]. intros H. apply Forall_cons in H as [H _].
      contradiction.
    + rewrite bool_decide_eq_false_2 by exact Hne. rewrite IH.
      split; [intros H; constructor; assumption|].
      intros H. apply Forall_cons in H as [_ H]. exact H.
Qed.

Lemma filter_nil_iff (results : list QueryResult) :
  filter positive results = [] <-> Forall (fun r => ~ positive r) results.
Proof.
  induction results as [|r results IH]; [split; [constructor | reflexivity]|].
  rewrite filter_cons. destruct (decide (positive r)) as [Hp|Hn].
  - split; [discriminate|]. intros H. apply Forall_cons in H as [H _].
    contradiction.
  - rewrite IH. split; [intros H; constructor; assumption|].
    intros H. apply Forall_cons in H as [_ H]. exact H.
Qed.

End RankerMore.

(** X12: the ranked output is empty exactly when no query result has a
    positive score. *)
Theorem rank_empty_iff :
  forall documents ts results,
    ResultRanker.rank documents ts results = []
    <-> Forall (fun r => ~ (0 < result_score r)%Q) results.
Proof.
  intros documents ts results. unfold ResultRanker.rank.
  fold ResultRanker.positive. rewrite <- filter_nil_iff. split.
  - intros H. apply fmap_nil_inv in H.
    destruct (filter ResultRanker.positive results); [reflexivity|].
    discriminate H.
  - intros ->. reflexivity.
Qed.

Lemma rank_empty_iff_witness :
  ResultRanker.rank [] [js "a"]
    [{| ref := js "1"; result_score := 0 |};
     {| ref := js "2"; result_score := 0 |}] = [].
Proof.
  apply rank_empty_iff. repeat constructor; simpl; apply Qlt_irrefl.
Defined.

(** X13: when the id strings of the document table are pairwise distinct,
    the join of a ref equal to the id string of a document of the table
    finds that document. *)
Theorem find_document_unique :
  forall documents d sc,
    NoDup (map (fun d => toString (id d)) documents) ->
    d ∈ documents ->
    ResultRanker.find_document documents
      {| ref := toString (id d); result_score := sc |} = Some d.
Proof.
  intros documents d sc. unfold ResultRanker.find_document.
  induction documents as [|d0 documents IH]; intros Hnd Hin.
  - apply elem_of_nil in Hin. destruct Hin.
  - cbn [map] in Hnd. apply NoDup_cons in Hnd as [Hfresh Hnd].
    cbn [List.find ref].
    apply elem_of_cons in Hin as [->|Hin].
    + rewrite bool_decide_eq_true_2 by reflexivity. reflexivity.
    + rewrite bool_decide_eq_false_2; [exact (IH Hnd Hin)|].
      intros Heq. apply Hfresh. rewrite Heq.
      apply (list_elem_of_fmap_2 (fun d => toString (id d))). exact Hin.
Qed.

Lemma find_document_unique_witness :
  let install :=
    {| id := IdNum 3; pageTitle := js "Install"; sectionTitle := js "Setup";
       sectionRoute := js "/docs/install#setup" |} in
  let guide :=
    {| id := IdNum 12; pageTitle := js "Guide"; sectionTitle := js "Guide";
       sectionRoute := js "/docs/guide" |} in
  ResultRanker.find_document [install; guide]
    {| ref := js "12"; result_score := 1 |} = Some guide.
Proof.
  intros install guide.
  apply (find_document_unique [install; guide] guide 1).
  - vm_compute. repeat constructor; intros H; apply list_elem_of_In in H;
      simpl in H; repeat (destruct H as [H|H]; [discriminate H|]); exact H.
  - right. left.
Defined.

(** X14: once 8 results of positive score have been seen, the results that
    follow do not change the ranked output. *)
Theorem rank_ignores_tail :
  forall documents ts results more,
    8 <= length (filter ResultRanker.positive results) ->
    ResultRanker.rank documents ts (results ++ more)
    = ResultRanker.rank documents ts results.
Proof.
  intros documents ts results more Hmany. unfold ResultRanker.rank.
  fold ResultRanker.positive. rewrite filter_app, take_app_le by exact Hmany.
  reflexivity.
Qed.

Lemma rank_ignores_tail_witness :
  ResultRanker.rank [] [js "a"]
    (nine_results ++ [{| ref := js "0"; result_score := 100 |}])
  = ResultRanker.rank [] [js "a"] nine_results.
Proof.
  apply rank_ignores_tail. vm_compute. lia.
Defined.

(** X15: for the suggestion made from a query result, rendering it and
    selecting it throw a TypeError exactly when no document of the table has
    the ref as its id string. *)
Theorem unmatched_ref_throws :
  forall (escape : jsstring -> jsstring) documents ts result,
    let s := ResultRanker.to_search_result documents ts result in
    (Templates.suggestion escape s = inl Navigation.TypeError
     <-> Forall (fun d => toString (id d) <> ref result) documents)
    /\ (Navigation.selected s = inl Navigation.TypeError
        <-> Forall (fun d => toString (id d) <> ref result) documents).
Proof.
  intros escape documents ts result s.
  rewrite <- find_document_none.
  unfold Templates.suggestion, Navigation.selected, s. simpl.
  destruct (ResultRanker.find_document documents result) as [d|].
  - split; (split; [|discriminate]).
    + discriminate.
    + destruct (encodeURIComponent (encode ts)); discriminate.
  - split; split; reflexivity.
Qed.

Lemma unmatched_ref_throws_witness :
  Templates.suggestion (fun title => title)
    (ResultRanker.to_search_result [] [js "a"]
       {| ref := js "7"; result_score := 1 |})
  = inl Navigation.TypeError.
Proof.
  apply (proj1 (unmatched_ref_throws (fun title => title) [] [js "a"]
                  {| ref := js "7"; result_score := 1 |})).
  constructor.
Defined.

(** ** Further properties of the load gate *)
Section LoadGateMore.

Import LoadGate.

Lemma install_invariant_step s e :
  gate_invariant s -> install_invariant s -> install_invariant (step s e).
Proof.
  destruct s as [st f n a i]. unfold gate_invariant, install_invariant.
  destruct e, st, a; simpl; intuition congruence.
Qed.

Lemma install_invariant_run s events :
  gate_invariant s -> install_invariant s -> install_invariant (run s events).
Proof.
  revert s. induction events as [|e events IH]; intros s Hg Hi; [exact Hi|].
  simpl. apply IH; [apply gate_invariant_step, Hg|].
  apply install_invariant_step; assumption.
Qed.

Lemma done_step s e :
  indexState s = st_done -> awaiting s = false ->
  indexState (step s e) = st_done /\ awaiting (step s e) = false
  /\ fetches (step s e) = fetches s /\ installed (step s e) = installed s.
Proof.
  destruct s as [st f n a i]; simpl; intros -> ->. destruct e; simpl; auto.
Qed.

Lemma done_run s events :
  indexState s = st_done -> awaiting s = false ->
  indexState (run s events) = st_done
  /\ fetches (run s events) = fetches s
  /\ installed (run s events) = installed s.
Proof.
  revert s. induction events as [|e events IH]; intros s Hst Haw; [auto|].
  simpl. destruct (done_step s e Hst Haw) as (Hst' & Haw' & Hf & Hi).
  destruct (IH _ Hst' Haw') as (? & ? & ?). repeat split; congruence.
Qed.

Lemma intent_step s e :
  is_intent e = true -> indexState s = st_loading ->
  indexState (step s e) = st_loading /\ awaiting (step s e) = awaiting s
  /\ fetches (step s e) = fetches s /\ installed (step s e) = installed s.
Proof.
  destruct s as [st f n a i]; simpl; intros He ->.
  destruct e; simpl; auto; discriminate He.
Qed.

Lemma intents_run s events :
  forallb is_intent events = true -> indexState s = st_loading ->
  indexState (run s events) = st_loading
  /\ awaiting (run s events) = awaiting s
  /\ fetches (run s events) = fetches s
  /\ installed (run s events) = installed s.
Proof.
  revert s. induction events as [|e events IH]; intros s Hall Hst; [auto|].
  simpl in Hall. apply andb_true_iff in Hall as [He Hall]. simpl.
  destruct (intent_step s e He Hst) as (Hst' & Haw & Hf & Hi).
  destruct (IH _ Hall Hst') as (? & ? & ? & ?). repeat split; congruence.
Qed.

Lemma focus_step s e :
  focusAfterIndexLoaded (step s e) = true
  <-> focusAfterIndexLoaded s = true \/ e = InputFocus.
Proof.
  destruct s as [st f n a i].
  destruct e, st, a, f; simpl; intuition congruence.
Qed.

Lemma focus_run events : forall s,
  focusAfterIndexLoaded (run s events) = true
  <-> focusAfterIndexLoaded s = true \/ InputFocus ∈ events.
Proof.
  induction events as [|e events IH]; intros s; simpl.
  - split; [auto|]. intros [H|H]; [exact H|]. apply elem_of_nil in H.
    destruct H.
  - rewrite IH, focus_step, elem_of_cons. intuition congruence.
Qed.

End LoadGateMore.

(** X16: over any events, [autoComplete] has been called once when the
    state is [done] and never otherwise; and [done] is final: later events
    change neither the state nor the counts of [fetchIndex] and
    [autoComplete] calls. *)
Theorem done_is_final :
  forall events,
    let s := LoadGate.run LoadGate.initial events in
    LoadGate.installed s <= 1
    /\ (LoadGate.installed s = 1 <-> LoadGate.indexState s = LoadGate.st_done)
    /\ (LoadGate.indexState s = LoadGate.st_done ->
        forall more,
          LoadGate.indexState (LoadGate.run s more) = LoadGate.st_done
          /\ LoadGate.fetches (LoadGate.run s more) = 1
          /\ LoadGate.installed (LoadGate.run s more) = 1).
Proof.
  intros events s.
  pose proof (gate_invariant_run _ events gate_invariant_initial) as Hg.
  pose proof (install_invariant_run _ events gate_invariant_initial
                ltac:(reflexivity)) as Hi.
  fold s in Hg, Hi. unfold LoadGate.gate_invariant in Hg.
  unfold install_invariant in Hi.
  split; [|split].
  - destruct (LoadGate.indexState s); lia.
  - destruct (LoadGate.indexState s); split; intros; (lia || congruence).
  - intros Hdone more. rewrite Hdone in Hg, Hi. destruct Hg as [Hf Haw].
    destruct (done_run s more Hdone Haw) as (H1 & H2 & H3).
    repeat split; congruence.
Qed.

Lemma done_is_final_witness :
  let s := LoadGate.run LoadGate.initial
             [LoadGate.InputMouseOver; LoadGate.LoadResolved] in
  LoadGate.indexState s = LoadGate.st_done
  /\ LoadGate.installed
       (LoadGate.run s [LoadGate.InputFocus; LoadGate.LoadRejected;
                        LoadGate.IconClick; LoadGate.LoadResolved]) = 1.
Proof.
  intros s. split; [reflexivity|].
  destruct (done_is_final [LoadGate.InputMouseOver; LoadGate.LoadResolved])
    as (_ & _ & Hfinal).
  exact (proj2 (proj2 (Hfinal eq_refl _))).
Defined.

(** X17: any non-empty sequence of intents, whichever they are and however
    many, leaves the gate in the same situation: state [loading], one
    [fetchIndex] call, the load still awaited, [autoComplete] not called. *)
Theorem intents_alone_load_once :
  forall events,
    events <> [] -> forallb is_intent events = true ->
    let s := LoadGate.run LoadGate.initial events in
    LoadGate.indexState s = LoadGate.st_loading
    /\ LoadGate.fetches s = 1
    /\ LoadGate.awaiting s = true
    /\ LoadGate.installed s = 0.
Proof.
  intros [|e events] Hne Hall s; [congruence|].
  simpl in Hall. apply andb_true_iff in Hall as [He Hall].
  assert (Hfirst : LoadGate.indexState (LoadGate.step LoadGate.initial e)
                   = LoadGate.st_loading
                   /\ LoadGate.fetches (LoadGate.step LoadGate.initial e) = 1
                   /\ LoadGate.awaiting (LoadGate.step LoadGate.initial e) = true
                   /\ LoadGate.installed (LoadGate.step LoadGate.initial e) = 0).
  { destruct e; try discriminate He; repeat split; reflexivity. }
  destruct Hfirst as (Hst & Hf & Haw & Hi).
  destruct (intents_run _ events Hall Hst) as (H1 & H2 & H3 & H4).
  unfold s. simpl. repeat split; congruence.
Qed.

Lemma intents_alone_load_once_witness :
  LoadGate.fetches
    (LoadGate.run LoadGate.initial
       [LoadGate.IconClick; LoadGate.InputFocus; LoadGate.InputFocus;
        LoadGate.InputMouseOver]) = 1.
Proof.
  apply (intents_alone_load_once
           [LoadGate.IconClick; LoadGate.InputFocus; LoadGate.InputFocus;
            LoadGate.InputMouseOver]); [discriminate | reflexivity].
Defined.

(** X18: once [onInputFocus] has run, [focusAfterIndexLoaded] is true, and
    once true it stays true whatever events follow: no handler and no
    completion of the load clears it. *)
Theorem focus_flag_latched :
  forall events more,
    (LoadGate.InputFocus ∈ events ->
     LoadGate.focusAfterIndexLoaded (LoadGate.run LoadGate.initial events)
     = true)
    /\ (LoadGate.focusAfterIndexLoaded (LoadGate.run LoadGate.initial events)
        = true ->
        LoadGate.focusAfterIndexLoaded
          (LoadGate.run LoadGate.initial (events ++ more)) = true).
Proof.
  intros events more. split.
  - intros Hin. apply focus_run. right. exact Hin.
  - intros Hset. unfold LoadGate.run. rewrite fold_left_app.
    apply focus_run. left. exact Hset.
Qed.

Lemma focus_flag_latched_witness :
  LoadGate.focusAfterIndexLoaded
    (LoadGate.run LoadGate.initial
       ([LoadGate.InputMouseOver; LoadGate.InputFocus]
        ++ [LoadGate.LoadRejected; LoadGate.IconClick])) = true.
Proof.
  destruct (focus_flag_latched [LoadGate.InputMouseOver; LoadGate.InputFocus]
              [LoadGate.LoadRejected; LoadGate.IconClick]) as [Hset Hkeep].
  apply Hkeep, Hset. right. left.
Defined.

(** X19: when the route holds a second "#", the pushed URL keeps the
    fragment up to that "#" only: what follows is dropped. *)
Theorem selected_drops_after_second_hash :
  forall (doc : Document) (sc : Q) (ts : list jsstring)
         (path fragment rest : jsstring),
    hashc ∉ path -> hashc ∉ fragment ->
    sectionRoute doc = path ++ hashc :: fragment ++ hashc :: rest ->
    Navigation.selected {| document := Some doc; score := sc; terms := ts |}
    = match encodeURIComponent (encode ts) with
      | None => inl Navigation.URIError
      | Some component =>
          inr (path ++ js "?highlight=" ++ component
               ++ match fragment with
                  | c :: f => hashc :: c :: f
                  | [] => []
                  end)
      end.
Proof.
  intros doc sc ts path fragment rest Hpath Hfrag Hroute.
  unfold Navigation.selected. simpl. rewrite Hroute.
  destruct (encodeURIComponent (encode ts)) as [component|]; [|reflexivity].
  rewrite (split_on_first _ _ _ Hpath), (split_on_first _ _ _ Hfrag). simpl.
  destruct fragment as [|c f]; simpl.
  - rewrite app_nil_r. reflexivity.
  - rewrite <- !app_assoc. reflexivity.
Qed.

Lemma selected_drops_after_second_hash_witness :
  Navigation.selected
    {| document := Some {| id := IdNum 1; pageTitle := js "A";
                           sectionTitle := js "B";
                           sectionRoute := js "/a#b#c#d" |};
       score := 1; terms := [js "x"] |}
  = inr (js "/a?highlight=x#b").
Proof.
  rewrite (selected_drops_after_second_hash _ 1 [js "x"]
             (js "/a") (js "b") (js "c#d")).
  - vm_compute. reflexivity.
  - vm_compute. intros H. apply list_elem_of_In in H. simpl in H.
    repeat (destruct H as [H|H]; [discriminate H|]). exact H.
  - vm_compute. intros H. apply list_elem_of_In in H. simpl in H.
    repeat (destruct H as [H|H]; [discriminate H|]). exact H.
  - vm_compute. reflexivity.
Defined.

(** X20: two separable sequences of terms with the same encoding are the
    same sequence. *)
Theorem encode_injective_on_separable :
  forall terms1 terms2,
    separable terms1 -> separable terms2 ->
    encode terms1 = encode terms2 -> terms1 = terms2.
Proof.
  intros terms1 terms2 H1 H2 Heq.
  rewrite <- (decode_encode_separable terms1 H1).
  rewrite <- (decode_encode_separable terms2 H2).
  rewrite Heq. reflexivity.
Qed.

Lemma encode_injective_on_separable_witness :
  separable [js "a~b"; js "c"]
  /\ encode (decode (js "a~~b~c")) = encode [js "a~b"; js "c"]
  /\ decode (js "a~~b~c") = [js "a~b"; js "c"].
Proof.
  assert (Hsep : separable [js "a~b"; js "c"])
    by (vm_compute; repeat split; discriminate).
  assert (Hsep' : separable (decode (js "a~~b~c")))
    by (vm_compute; repeat split; discriminate).
  assert (Heq : encode (decode (js "a~~b~c")) = encode [js "a~b"; js "c"])
    by (vm_compute; reflexivity).
  split; [exact Hsep|]. split; [exact Heq|].
  exact (encode_injective_on_separable _ _ Hsep' Hsep Heq).
Defined.

(** ** The URL of a selection *)
Section SelectionFacts.

Lemma encode_spelled ts :
  encode ts
  = join [tilde]
      (map (flat_map
              (fun c => if decide (c = tilde) then [tilde; tilde] else [c]))
         ts).
Proof. reflexivity. Qed.

Lemma encodeURIComponent_throws ts :
  encodeURIComponent (encode ts) = None ->
  ~ Forall (Forall (fun c => surrogate c = false)) ts.
Proof.
  intros Hnone Hall.
  destruct (encodeURIComponent_total (encode ts)) as [e He].
  - apply Forall_encode_intro; [reflexivity | exact Hall].
  - congruence.
Qed.

End SelectionFacts.

(** C7 as stated fails twice: on a route that ends with "#" (an empty
    fragment) the pushed URL has no "#" at all; and when a term holds a lone
    surrogate [encodeURIComponent] throws and no URL is pushed. *)
Lemma selected_empty_fragment_or_throw :
  let doc route :=
    {| id := IdNum 1; pageTitle := js "A"; sectionTitle := js "B";
       sectionRoute := route |} in
  (Navigation.selected
     {| document := Some (doc (js "/a#")); score := 1; terms := [js "x"] |}
   = inr (js "/a?highlight=x")
   /\ Navigation.selected
        {| document := Some (doc (js "/a#")); score := 1; terms := [js "x"] |}
      <> inr (js "/a" ++ js "?highlight=" ++ js "x" ++ js "#" ++ []))
  /\ (Navigation.selected
        {| document := Some (doc (js "/a#b")); score := 1;
           terms := [[55357%N]] |}
      = inl Navigation.URIError
      /\ forall url,
           Navigation.selected
             {| document := Some (doc (js "/a#b")); score := 1;
                terms := [[55357%N]] |}
           <> inr url).
Proof.
  intros doc. split; split.
  - vm_compute. reflexivity.
  - vm_compute. discriminate.
  - vm_compute. reflexivity.
  - intros url. vm_compute. discriminate.
Qed.

(** C7, amended: for a route made of a path, optionally followed by "#" and
    a fragment (neither containing "#"), let the value be
    [encodeURIComponent] of the terms, each with every "~" doubled, joined
    by "~".  When [encodeURIComponent] throws, which takes a term with a
    surrogate code unit, the handler throws a URIError and pushes nothing.
    Otherwise the URL pushed is the path, then "?highlight=" and the value,
    then, exactly when the route has a non-empty fragment, "#" and that
    fragment; the value holds no "#", "&" or "?", and it is the joined
    string itself when the terms are made of letters, digits and
    [-_.!~*'()] only. *)
Theorem selected_url :
  forall (doc : Document) (sc : Q) (ts : list jsstring)
         (path : jsstring) (fragment : option jsstring),
    hashc ∉ path ->
    (forall f, fragment = Some f -> hashc ∉ f) ->
    sectionRoute doc = path ++ from_option (cons hashc) [] fragment ->
    let suggestion := {| document := Some doc; score := sc; terms := ts |} in
    let joined :=
      join [tilde]
        (map (flat_map
                (fun c => if decide (c = tilde) then [tilde; tilde] else [c]))
           ts) in
    match encodeURIComponent joined with
    | None =>
        Navigation.selected suggestion = inl Navigation.URIError
        /\ ~ Forall (Forall (fun c => surrogate c = false)) ts
    | Some value =>
        Navigation.selected suggestion
        = inr (path ++ js "?highlight=" ++ value
               ++ match fragment with
                  | Some (c :: f) => hashc :: c :: f
                  | _ => []
                  end)
        /\ (hashc ∉ value) /\ (amp ∉ value) /\ (qmark ∉ value)
        /\ (Forall (Forall (fun c => unescaped c = true)) ts ->
            value = joined)
    end.
Proof.
  intros doc sc ts path fragment Hpath Hfrag Hroute suggestion joined.
  assert (Hsplit : split_on hashc (sectionRoute doc)
                   = path :: match fragment with
                             | Some f => [f]
                             | None => []
                             end).
  { rewrite Hroute. destruct fragment as [f|]; simpl.
    - rewrite (split_on_first _ _ _ Hpath).
      rewrite (split_on_absent _ _ (Hfrag f eq_refl)). reflexivity.
    - rewrite app_nil_r. apply split_on_absent, Hpath. }
  unfold joined. rewrite <- encode_spelled.
  unfold Navigation.selected, suggestion. cbn [document terms].
  rewrite Hsplit.
  destruct (encodeURIComponent (encode ts)) as [value|] eqn:He.
  - split; [|split; [|split; [|split]]].
    + destruct fragment as [[|c f]|]; simpl;
        rewrite ?app_nil_r, <- ?app_assoc; reflexivity.
    + intros Hin.
      pose proof (encodeURIComponent_safe _ _ He) as Hsafe.
      rewrite Forall_forall in Hsafe.
      destruct (Hsafe _ Hin ltac:(reflexivity)) as [H|H];
        vm_compute in H; discriminate H.
    + exact (encodeURIComponent_no_amp _ _ He).
    + intros Hin.
      pose proof (encodeURIComponent_safe _ _ He) as Hsafe.
      rewrite Forall_forall in Hsafe.
      destruct (Hsafe _ Hin ltac:(reflexivity)) as [H|H];
        vm_compute in H; discriminate H.
    + intros Hall.
      assert (Hid : encodeURIComponent (encode ts) = Some (encode ts)).
      { apply encodeURIComponent_unescaped, Forall_encode_intro;
          [reflexivity | exact Hall]. }
      congruence.
  - split; [reflexivity | exact (encodeURIComponent_throws _ He)].
Qed.

Lemma selected_url_witness :
  Navigation.selected
    {| document := Some {| id := IdStr (js "3"); pageTitle := js "Install Guide";
                           sectionTitle := js "Setup";
                           sectionRoute := js "/docs/install#setup" |};
       score := 1; terms := [js "a~b"; js "c++"] |}
  = inr (js "/docs/install?highlight=a~~b~c%2B%2B#setup").
Proof.
  pose proof (selected_url
                {| id := IdStr (js "3"); pageTitle := js "Install Guide";
                   sectionTitle := js "Setup";
                   sectionRoute := js "/docs/install#setup" |}
                1 [js "a~b"; js "c++"]
                (js "/docs/install") (Some (js "setup"))) as H.
  assert (Hpath : hashc ∉ js "/docs/install").
  { vm_compute. intros Hin. apply list_elem_of_In in Hin. simpl in Hin.
    repeat (destruct Hin as [Hin|Hin]; [discriminate Hin|]). exact Hin. }
  assert (Hfrag : forall f, Some (js "setup") = Some f -> hashc ∉ f).
  { intros f [= <-]. vm_compute. intros Hin. apply list_elem_of_In in Hin.
    simpl in Hin. repeat (destruct Hin as [Hin|Hin]; [discriminate Hin|]).
    exact Hin. }
  specialize (H Hpath Hfrag eq_refl).
  assert (He : encodeURIComponent
                 (join [tilde]
                    (map (flat_map
                            (fun c => if decide (c = tilde)
                                      then [tilde; tilde] else [c]))
                       [js "a~b"; js "c++"]))
               = Some (js "a~~b~c%2B%2B")) by (vm_compute; reflexivity).
  cbv zeta in H. rewrite He in H. destruct H as [H _].
  rewrite H. vm_compute. reflexivity.
Defined.
